(** * uPDFParser: a shallow embedding of the scanner, value parser and
      incremental writer (src/src/uPDFParser.cpp, src/src/uPDFTypes.cpp).

    The file descriptor of the parser is modelled as the whole file content
    (a [string] of bytes) plus the current position; [lseek] and [read] are
    written out on that pair.  C++ exceptions are the [inl] side of a sum. *)

From Stdlib Require Import String Ascii List ZArith Lia Bool.
From Stdlib Require Import Sorting.Sorted Sorting.Permutation.
Import ListNotations.
Open Scope string_scope.
Open Scope Z_scope.

(** ** Errors: the library's exception kinds and the std:: ones that escape *)

Inductive error :=
| TRUNCATED_FILE
| INVALID_HEADER
| INVALID_TOKEN
| INVALID_NAME
| INVALID_HEXASTRING
| INVALID_STREAM
| INVALID_OBJECT
| INVALID_TRAILER
| INVALID_LINE
| StdInvalidArgument   (** std::invalid_argument thrown by std::stoi / std::stof *)
| StdOutOfRange        (** std::out_of_range thrown by std::stoi / std::stof *)
| NullDeref            (** a member call through a null DataType* *)
| OutOfFuel.           (** bound of the model's loops; not a behaviour of the code *)

Definition result (A : Type) : Type := (error + A)%type.

(** ** Values (uPDFTypes.h) *)

#[local] Set Warnings "-register-all".

(** [Real] keeps the text handed to std::stof: the float itself is not
    modelled (no claim is about Real values). *)
Inductive DataType :=
| Integer (value : Z) (signed : bool)
| Real (negated : bool) (text : string) (signed : bool)
| Name (value : string)
| VString (value : string)
| HexaString (value : string)
| Array (value : list DataType)
| Dictionary (value : list (string * option DataType))
| Reference (objectId generationNumber : Z)
| Stream (dict : list (string * option DataType)) (startOffset endOffset : Z)
| Boolean (value : bool)
| Null.

(** A [std::map<std::string, DataType*>]: an association list kept sorted by
    [String.compare] (byte-wise, as [std::string::compare]); [None] is the
    null pointer stored by [dict[key] = 0]. *)
Definition Dict := list (string * option DataType).

(** [_value[key] = value] *)
Fixpoint map_insert (k : string) (v : option DataType) (m : Dict) : Dict :=
  match m with
  | [] => [(k, v)]
  | (k', v') :: t =>
      match String.compare k k' with
      | Lt => (k, v) :: m
      | Eq => (k, v) :: t
      | Gt => (k', v') :: map_insert k v t
      end
  end.

(** [_value.erase(key)] *)
Fixpoint map_delete (k : string) (m : Dict) : Dict :=
  match m with
  | [] => []
  | (k', v') :: t => if String.eqb k k' then t else (k', v') :: map_delete k t
  end.

Fixpoint map_find (k : string) (m : Dict) : option (option DataType) :=
  match m with
  | [] => None
  | (k', v') :: t => if String.eqb k k' then Some v' else map_find k t
  end.

Definition hasKey (k : string) (m : Dict) : bool :=
  match map_find k m with Some _ => true | None => false end.

(** ** Objects (uPDFObject.h) *)

Record Object := mkObject {
  objectId : Z;
  generationNumber : Z;
  offset : Z;
  odict : Dict;
  odata : list DataType;
  indirectOffset : option Z;
  used : bool;
  isNew : bool
}.

(** Modelled from the spec: the constructor [Object(id, gen, offset)] of
    uPDFObject.h (not among the sources) used by [parseObject]; a parsed
    Object starts with an empty dictionary and data list, no indirect offset,
    and [new = false] (only Objects added after parsing are new). *)
Definition newParsedObject (id gen off : Z) : Object :=
  mkObject id gen off [] [] None true false.

(** Modelled from the spec: the default-constructed trailer Object. *)
Definition emptyObject : Object := mkObject 0 0 0 [] [] None true false.

Definition set_odict (o : Object) (d : Dict) : Object :=
  mkObject (objectId o) (generationNumber o) (offset o) d (odata o)
           (indirectOffset o) (used o) (isNew o).

Definition set_odata (o : Object) (l : list DataType) : Object :=
  mkObject (objectId o) (generationNumber o) (offset o) (odict o) l
           (indirectOffset o) (used o) (isNew o).

Definition set_indirect (o : Object) (n : Z) : Object :=
  mkObject (objectId o) (generationNumber o) (offset o) (odict o) (odata o)
           (Some n) (used o) (isNew o).

Definition set_used (o : Object) (b : bool) : Object :=
  mkObject (objectId o) (generationNumber o) (offset o) (odict o) (odata o)
           (indirectOffset o) b (isNew o).

Record XRefValue := mkXRef {
  xr_objectId : Z; xr_offset : Z; xr_generationNumber : Z; xr_used : bool }.

(** ** Parser state: the members of [class Parser] plus the descriptor *)

Record pstate := mkState {
  file : string;            (** bytes of the file open on [fd] *)
  pos : nat;                (** [lseek(fd, 0, SEEK_CUR)] *)
  curOffset : Z;
  objects : list Object;    (** [_objects] *)
  trailer : Object;
  xrefOffset : Z;
  xrefTable : list XRefValue;
  cur : Object;             (** the [Object*] handed down to [parseType] *)
  version_major : Z;
  version_minor : Z
}.

Definition set_pos (st : pstate) (p : nat) : pstate :=
  mkState (file st) p (curOffset st) (objects st) (trailer st) (xrefOffset st)
          (xrefTable st) (cur st) (version_major st) (version_minor st).

Definition set_curOffset (st : pstate) (o : Z) : pstate :=
  mkState (file st) (pos st) o (objects st) (trailer st) (xrefOffset st)
          (xrefTable st) (cur st) (version_major st) (version_minor st).

Definition set_cur (st : pstate) (c : Object) : pstate :=
  mkState (file st) (pos st) (curOffset st) (objects st) (trailer st) (xrefOffset st)
          (xrefTable st) c (version_major st) (version_minor st).

Definition set_objects (st : pstate) (l : list Object) : pstate :=
  mkState (file st) (pos st) (curOffset st) l (trailer st) (xrefOffset st)
          (xrefTable st) (cur st) (version_major st) (version_minor st).

Definition set_trailer (st : pstate) (t : Object) : pstate :=
  mkState (file st) (pos st) (curOffset st) (objects st) t (xrefOffset st)
          (xrefTable st) (cur st) (version_major st) (version_minor st).

Definition set_xrefOffset (st : pstate) (x : Z) : pstate :=
  mkState (file st) (pos st) (curOffset st) (objects st) (trailer st) x
          (xrefTable st) (cur st) (version_major st) (version_minor st).

Definition set_xrefTable (st : pstate) (x : list XRefValue) : pstate :=
  mkState (file st) (pos st) (curOffset st) (objects st) (trailer st) (xrefOffset st)
          x (cur st) (version_major st) (version_minor st).

Definition set_version (st : pstate) (ma mi : Z) : pstate :=
  mkState (file st) (pos st) (curOffset st) (objects st) (trailer st) (xrefOffset st)
          (xrefTable st) (cur st) ma mi.

(** [read(fd, &c, 1)]: [None] when it does not return 1 (end of file). *)
Definition read (st : pstate) : option (ascii * pstate) :=
  match String.get (pos st) (file st) with
  | Some c => Some (c, set_pos st (S (pos st)))
  | None => None
  end.

(** [lseek(fd, off, SEEK_SET)]: a negative target fails and leaves the
    offset where it was. *)
Definition seek_set (st : pstate) (off : Z) : pstate :=
  if off <? 0 then st else set_pos st (Z.to_nat off).

(** [lseek(fd, -1, SEEK_CUR)] *)
Definition seek_back1 (st : pstate) : pstate := set_pos st (Nat.pred (pos st)).

Definition tell (st : pstate) : Z := Z.of_nat (pos st).

(** Remaining bytes: a bound for the loops that consume at least one byte
    per iteration. *)
Definition remaining (st : pstate) : nat := String.length (file st) - pos st.

Definition is_newline (c : ascii) : bool :=
  (c =? "010")%char || (c =? "013")%char.

(** [finishLine(fd)] *)
Fixpoint finishLine_loop (fuel : nat) (st : pstate) : pstate :=
  match fuel with
  | O => st
  | S f =>
      match read st with
      | None => st
      | Some (c, st') => if is_newline c then st' else finishLine_loop f st'
      end
  end.

Definition finishLine (st : pstate) : pstate :=
  let st1 := finishLine_loop (S (remaining st)) st in
  match read st1 with
  | Some (c, st2) => if is_newline c then st2 else seek_back1 st2
  | None => st1
  end.

(** ** The scanner: [Parser::nextToken(exceptionOnEOF, readComment)] *)

Definition snoc (s : string) (c : ascii) : string := s ++ String c EmptyString.

(** Membership in a [static const char[]]: the loops run to [sizeof], so the
    terminating NUL of the literal is a member too. *)
Fixpoint in_chars (c : ascii) (s : string) : bool :=
  match s with
  | EmptyString => false
  | String d t => (c =? d)%char || in_chars c t
  end.

Definition in_cstr (c : ascii) (s : string) : bool := in_chars c s || (c =? "000")%char.

Definition delims : string := " " ++ String "009" EmptyString ++ "<>[]()/".
Definition whitespace_prev_delims : string := "+-".
Definition start_delims : string := "<>[]()".

Definition is_white (c : ascii) : bool :=
  (c =? " ")%char || (c =? "009")%char || (c =? "010")%char
  || (c =? "013")%char || (c =? "000")%char.

Definition is_empty (s : string) : bool :=
  match s with EmptyString => true | _ => false end.

(** The inner loop of the [readComment] branch. *)
Fixpoint comment_loop (fuel : nat) (eof : bool) (res : string) (st : pstate)
  : result (string * pstate) :=
  match fuel with
  | O => inl OutOfFuel
  | S f =>
      match read st with
      | None => if eof then inl TRUNCATED_FILE else inr (res, st)
      | Some (c, st') =>
          if is_newline c then inr (res, st') else comment_loop f eof (snoc res c) st'
      end
  end.

(** One iteration of the [while (!found)] loop.  The loop state is the
    variable [c] (last byte read), the accumulated [res] and the parser
    state; [prev_c] is [c] at the top of the iteration. *)
Inductive nt_out :=
| NtCont (c : ascii) (res : string) (st : pstate)
| NtBreak (res : string) (st : pstate)
| NtErr (e : error).

Definition nt_body (eof rc : bool) (c : ascii) (res : string) (st : pstate) : nt_out :=
  let prev_c := c in
  match read st with
  | None => if eof then NtErr TRUNCATED_FILE else NtBreak res st
  | Some (c, st1) =>
      if (c =? "%")%char then
        if rc then
          let st2 := set_curOffset st1 (tell st1 - 1) in
          match comment_loop (S (remaining st2)) eof (snoc res c) st2 with
          | inl e => NtErr e
          | inr (r, st3) => NtBreak r st3
          end
        else
          let st2 := finishLine st1 in
          if is_empty res then NtCont c res st2 else NtBreak res st2
      else if is_white c && is_empty res then NtCont c res st1
      else if is_newline c then
        (if is_empty res then NtCont c res st1 else NtBreak res st1)
      else if negb (is_empty res) then
        if in_cstr c delims then NtBreak res (seek_back1 st1)
        else if (prev_c =? " ")%char && in_cstr c whitespace_prev_delims
        then NtBreak res (seek_back1 st1)
        else NtCont c (snoc res c) st1
      else
        let st2 := set_curOffset st1 (tell st1 - 1) in
        if in_cstr c start_delims then NtBreak (snoc res c) st2
        else NtCont c (snoc res c) st2
  end.

Fixpoint nt_loop (fuel : nat) (eof rc : bool) (c : ascii) (res : string) (st : pstate)
  : result (string * pstate) :=
  match fuel with
  | O => inl OutOfFuel
  | S f =>
      match nt_body eof rc c res st with
      | NtCont c' res' st' => nt_loop f eof rc c' res' st'
      | NtBreak res' st' => inr (res', st')
      | NtErr e => inl e
      end
  end.

Definition first_char (s : string) : ascii :=
  match s with String c _ => c | EmptyString => "000"%char end.

(** After the loop: a lone [<] or [>] is extended to [<<] / [>>]. *)
Definition nt_digraph (res : string) (st : pstate) : string * pstate :=
  if String.eqb res ">" || String.eqb res "<" then
    match read st with
    | Some (c, st1) =>
        if (c =? first_char res)%char then (snoc res c, st1) else (res, seek_back1 st1)
    | None => (res, st)
    end
  else (res, st).

Definition nextToken (eof rc : bool) (st : pstate) : result (string * pstate) :=
  match nt_loop (S (S (remaining st))) eof rc "000"%char "" st with
  | inl e => inl e
  | inr (res, st') => inr (nt_digraph res st')
  end.

(** [nextToken()] with its default arguments. *)
Definition nextToken_d (st : pstate) : result (string * pstate) := nextToken true false st.

(** ** Numbers: [std::stoi], [std::stof] and [tokenToNumber] *)

Definition bindr {A B : Type} (m : result A) (k : A -> result B) : result B :=
  match m with inl e => inl e | inr a => k a end.

Notation "'let*' x ':=' m 'in' k" := (bindr m (fun x => k))
  (at level 200, x name, m at level 100, k at level 200).
Notation "'let*' ' p ':=' m 'in' k" := (bindr m (fun x => match x with p => k end))
  (at level 200, p pattern, m at level 100, k at level 200).

Definition INT_MIN : Z := - 2 ^ 31.
Definition INT_MAX : Z := 2 ^ 31 - 1.

(** Conversion to a 32-bit [int] with wrap-around. *)
Definition wrap32 (z : Z) : Z := (z + 2 ^ 31) mod 2 ^ 32 - 2 ^ 31.

(** [isspace] in the C locale, as skipped by [strtol]. *)
Definition is_cspace (c : ascii) : bool :=
  (c =? " ")%char || (c =? "009")%char || (c =? "010")%char || (c =? "011")%char
  || (c =? "012")%char || (c =? "013")%char.

Fixpoint skip_space (s : string) : string :=
  match s with
  | String c t => if is_cspace c then skip_space t else s
  | EmptyString => s
  end.

Definition is_digit (c : ascii) : bool :=
  (48 <=? nat_of_ascii c)%nat && (nat_of_ascii c <=? 57)%nat.

Definition digit_val (c : ascii) : Z := Z.of_nat (nat_of_ascii c) - 48.

(** Longest prefix of decimal digits: its value and its length. *)
Fixpoint digits_prefix (s : string) (acc : Z) (n : nat) : Z * nat :=
  match s with
  | String c t => if is_digit c then digits_prefix t (10 * acc + digit_val c) (S n) else (acc, n)
  | EmptyString => (acc, n)
  end.

Definition strip_sign (s : string) : bool * string :=
  match s with
  | String c t =>
      if (c =? "-")%char then (true, t) else if (c =? "+")%char then (false, t) else (false, s)
  | EmptyString => (false, s)
  end.

(** [std::stoi(s)] (base 10): [strtol] on the longest numeric prefix;
    no digit raises invalid_argument, a value outside [int] out_of_range. *)
Definition stoi (s : string) : result Z :=
  let '(neg, t) := strip_sign (skip_space s) in
  let '(v, n) := digits_prefix t 0 0 in
  if (n =? 0)%nat then inl StdInvalidArgument
  else
    let z := if neg then - v else v in
    if (INT_MIN <=? z) && (z <=? INT_MAX) then inr z else inl StdOutOfRange.

Definition lower (c : ascii) : ascii :=
  let n := nat_of_ascii c in
  if (65 <=? n)%nat && (n <=? 90)%nat then ascii_of_nat (n + 32) else c.

Fixpoint prefix_ci (p s : string) : bool :=
  match p, s with
  | EmptyString, _ => true
  | String a p', String b s' => (a =? lower b)%char && prefix_ci p' s'
  | _, _ => false
  end.

(** The bytes of [s] after its first [n]. *)
Definition str_drop (n : nat) (s : string) : string :=
  String.substring n (String.length s - n) s.

Definition hex_val (c : ascii) : option Z :=
  if is_digit c then Some (digit_val c)
  else
    let n := nat_of_ascii (lower c) in
    if (97 <=? n)%nat && (n <=? 102)%nat then Some (Z.of_nat n - 87) else None.

(** Longest prefix of hexadecimal digits: its value and its length. *)
Fixpoint hex_prefix (s : string) (acc : Z) (n : nat) : Z * nat :=
  match s with
  | String c t =>
      match hex_val c with
      | Some d => hex_prefix t (16 * acc + d) (S n)
      | None => (acc, n)
      end
  | EmptyString => (acc, n)
  end.

(** The exponent [strtof] reads after the mantissa: [marker] ([e] or [p],
    in either case), an optional sign and at least one decimal digit;
    without digits the marker is not part of the number. *)
Definition exponent_part (marker : ascii) (s : string) : Z :=
  match s with
  | String c t =>
      if (lower c =? marker)%char then
        let '(neg, u) := strip_sign t in
        let '(e, n) := digits_prefix u 0 0 in
        if (n =? 0)%nat then 0 else if neg then - e else e
      else 0
  | EmptyString => 0
  end.

(** The mantissa of [strtof]'s subject sequence in base 10 ([digits] is
    [digits_prefix], [scale] 1) or 16 ([hex_prefix], [scale] 4): digits, an
    optional point and more digits, at least one digit in all, then the
    exponent.  The value is [m * 10 ^ e] (decimal) or [m * 2 ^ e] (hex). *)
Definition mantissa (digits : string -> Z -> nat -> Z * nat) (scale : Z) (marker : ascii)
  (t : string) : option (Z * Z) :=
  let '(vi, ni) := digits t 0 0%nat in
  let r := str_drop ni t in
  let '(m, nf, r') :=
    match r with
    | String c u =>
        if (c =? ".")%char then
          let '(m, nf) := digits u vi 0%nat in (m, nf, str_drop nf u)
        else (vi, 0%nat, r)
    | EmptyString => (vi, 0%nat, r)
    end in
  if (ni + nf =? 0)%nat then None
  else Some (m, exponent_part marker r' - scale * Z.of_nat nf).

(** Whether the nonnegative value [m * b ^ e] converts to a [float]
    without [strtof] setting [ERANGE] (glibc, rounding to nearest, tininess
    detected after rounding as on x86): with [v = N / D], overflow when [v]
    rounds above [FLT_MAX], i.e. [v >= 2^128 - 2^103]; underflow when [v]
    is nonzero, still below [2^-126] once rounded to 24 bits, i.e.
    [v < 2^-126 - 2^-151], and not a multiple of [2^-149] (inexact). *)
Definition float_range_ok (m b e : Z) : bool :=
  let N := m * b ^ Z.max e 0 in
  let D := b ^ Z.max (- e) 0 in
  if N =? 0 then true
  else
    negb ((2 ^ 128 - 2 ^ 103) * D <=? N)
    && negb ((N * 2 ^ 151 <? (2 ^ 25 - 1) * D) && negb (N * 2 ^ 149 mod D =? 0)).

(** [std::stof(s)] as libstdc++ writes it ([__stoa] over [strtof]): no
    conversion raises invalid_argument, [errno == ERANGE] raises
    out_of_range.  [strtof] skips spaces, takes a sign, then [inf] / [nan]
    (never out of range), a hexadecimal [0x] mantissa with a binary [p]
    exponent, or a decimal mantissa with an [e] exponent ([0x] without a
    hexadecimal digit is the decimal [0]).  Only the failure mode matters
    here; the float value is not modelled. *)
Definition stof (s : string) : result unit :=
  let t := snd (strip_sign (skip_space s)) in
  if prefix_ci "inf" t || prefix_ci "nan" t then inr tt
  else
    let conv :=
      match (if prefix_ci "0x" t then mantissa hex_prefix 4 "p" (str_drop 2 t) else None) with
      | Some (m, e) => Some (m, 2, e)
      | None =>
          match mantissa digits_prefix 1 "e" t with
          | Some (m, e) => Some (m, 10, e)
          | None => None
          end
      end in
    match conv with
    | None => inl StdInvalidArgument
    | Some (m, b, e) => if float_range_ok m b e then inr tt else inl StdOutOfRange
    end.

(** [tokenToNumber(token, sign)]; [sign] is ["000"] for the default ['\0']. *)
Definition tokenToNumber (token : string) (sign : ascii) : result DataType :=
  let signed := negb (sign =? "000")%char in
  if in_chars "." token then
    let token' := if (first_char token =? ".")%char then "0" ++ token else token in
    let* _ := stof token' in
    inr (Real (sign =? "-")%char token' signed)
  else
    let* v := stoi token in
    inr (Integer (if (sign =? "-")%char then wrap32 (- v) else v) signed).

(** ** Raw readers: [readline], [parseString], [parseHexaString] *)

(** [readline(fd, buffer, size, exceptionOnEOF)]: the bytes stored in the
    buffer and the return value ([-1] at end of file). *)
Fixpoint readline_loop (fuel size : nat) (eof : bool) (buf : string) (st : pstate)
  : result (string * Z * pstate) :=
  match fuel with
  | O => inl OutOfFuel
  | S f =>
      match size with
      | O => inr (buf, Z.of_nat (String.length buf), st)
      | S size' =>
          match read st with
          | None => if eof then inl TRUNCATED_FILE else inr (buf, -1, st)
          | Some (c, st1) =>
              if is_newline c then
                if is_empty buf then readline_loop f size eof buf st1
                else inr (buf, Z.of_nat (String.length buf), st1)
              else readline_loop f size' eof (snoc buf c) st1
          end
      end
  end.

Definition readline (size : nat) (eof : bool) (st : pstate) : result (string * Z * pstate) :=
  readline_loop (S (remaining st)) size eof "" st.

(** The loop of [Parser::parseString]. *)
Fixpoint ps_loop (fuel : nat) (escaped : bool) (count : Z) (res : string) (st : pstate)
  : result (string * pstate) :=
  match fuel with
  | O => inl OutOfFuel
  | S f =>
      match read st with
      | None => inr (res, st)
      | Some (c, st1) =>
          let count' :=
            if (c =? "(")%char && negb escaped then count + 1
            else if (c =? ")")%char && negb escaped then count - 1
            else count in
          if (c =? ")")%char && negb escaped && (count' =? 0) then inr (res, st1)
          else
            let escaped' :=
              if (c =? "\")%char && escaped then false else (c =? "\")%char in
            ps_loop f escaped' count' (snoc res c) st1
      end
  end.

Definition parseString (st : pstate) : result (DataType * pstate) :=
  let* '(res, st') := ps_loop (S (remaining st)) false 1 "" st in
  inr (VString res, st').

Fixpoint hex_loop (fuel : nat) (res : string) (st : pstate) : result (string * pstate) :=
  match fuel with
  | O => inl OutOfFuel
  | S f =>
      match read st with
      | None => inr (res, st)
      | Some (c, st1) => if (c =? ">")%char then inr (res, st1) else hex_loop f (snoc res c) st1
      end
  end.

Definition parseHexaString (st : pstate) : result (DataType * pstate) :=
  let* '(res, st') := hex_loop (S (remaining st)) "" st in
  if Nat.odd (String.length res) then inl INVALID_HEXASTRING
  else inr (HexaString res, st').

(** ** [parseStream] *)

(** The [while (1)] scan for [endstream] by 4 KiB lines. *)
Fixpoint endstream_scan (fuel : nat) (st : pstate) : result (Z * pstate) :=
  match fuel with
  | O => inl OutOfFuel
  | S f =>
      let* '(buf, ret, st1) := readline 4096 true st in
      match String.index 0 "endstream" buf with
      | Some p =>
          let st2 := seek_set st1 (tell st1 - (ret - Z.of_nat p - 9)) in
          inr (tell st2 - 10, st2)
      | None => endstream_scan f st1
      end
  end.

(** [Parser::parseStream(object)]: [cur st] is [*object]. *)
Definition parseStream (st : pstate) : result (DataType * pstate) :=
  let startOffset := tell st in
  let d := odict (cur st) in
  let slow (st0 : pstate) :=
    let* '(endOffset, st1) := endstream_scan (S (remaining st0)) st0 in
    inr (Stream d startOffset endOffset, st1) in
  match map_find "Length" d with
  | None => inl INVALID_STREAM
  | Some Length =>
      if hasKey "Filter" d then slow st
      else
        match Length with
        | None => inl NullDeref
        | Some (Integer len _) =>
            let endOffset := startOffset + len in
            let* '(token, st1) := nextToken_d (seek_set st endOffset) in
            if String.eqb token "endstream" then inr (Stream d startOffset endOffset, st1)
            else slow (seek_set st1 startOffset)
        | Some _ => slow st
        end
  end.

(** ** Names, numbers and references *)

Definition parseName (name : string) : result DataType :=
  if is_empty name || negb (first_char name =? "/")%char then inl INVALID_NAME
  else inr (Name name).

(** Modelled from the spec: [Name::value()] (uPDFTypes.h, not among the
    sources) as used for dictionary keys: the name without its leading [/],
    which [Dictionary::str] writes back and against which [hasKey("Length")]
    is matched. *)
Definition Name_key (name : string) : string :=
  String.substring 1 (String.length name - 1) name.

Definition parseSignedNumber (token : string) : result DataType :=
  tokenToNumber (String.substring 1 (String.length token - 1) token) (first_char token).

Definition parseNumber (token : string) : result DataType := tokenToNumber token "000".

Definition parseNumberOrReference (token : string) (st : pstate) : result (DataType * pstate) :=
  let* res := tokenToNumber token "000" in
  match res with
  | Integer first _ =>
      let off := tell st in
      let* '(token2, st2) := nextToken_d st in
      let* '(token3, st3) := nextToken_d st2 in
      match tokenToNumber token2 "000" with
      | inl StdInvalidArgument => inr (res, seek_set st3 off)
      | inl e => inl e
      | inr (Integer gen _) =>
          if String.eqb token3 "R" then inr (Reference first gen, st3)
          else inr (res, seek_set st3 off)
      | inr _ => inr (res, seek_set st3 off)
      end
  | _ => inr (res, st)
  end.

Definition is_digit19 (c : ascii) : bool :=
  (49 <=? nat_of_ascii c)%nat && (nat_of_ascii c <=? 57)%nat.

(** [dict[key] = value] on the dictionary being filled: the Object's own
    dictionary ([into_cur]) or a fresh one ([acc]). *)
Definition dict_put (into_cur : bool) (k : string) (v : option DataType) (acc : Dict)
  (st : pstate) : Dict * pstate :=
  if into_cur then
    let d := map_insert k v (odict (cur st)) in (d, set_cur st (set_odict (cur st) d))
  else (map_insert k v acc, st).

Definition dict_cur (into_cur : bool) (acc : Dict) (st : pstate) : Dict :=
  if into_cur then odict (cur st) else acc.

(** ** The recursive-descent value parser *)

Fixpoint parseType (fuel : nat) (token : string) (st : pstate) {struct fuel}
  : result (DataType * pstate) :=
  match fuel with
  | O => inl OutOfFuel
  | S f =>
      if String.eqb token "<<" then
        let* '(d, st1) := parseDictionary f false [] st in inr (Dictionary d, st1)
      else if String.eqb token "[" then parseArray f [] st
      else if String.eqb token "(" then parseString st
      else if String.eqb token "<" then parseHexaString st
      else if String.eqb token "stream" then parseStream st
      else if is_digit19 (first_char token) then parseNumberOrReference token st
      else if (first_char token =? "/")%char then
        let* v := parseName token in inr (v, st)
      else if (first_char token =? "+")%char || (first_char token =? "-")%char then
        let* v := parseSignedNumber token in inr (v, st)
      else if (first_char token =? "0")%char || (first_char token =? ".")%char then
        let* v := parseNumber token in inr (v, st)
      else if String.eqb token "true" then inr (Boolean true, st)
      else if String.eqb token "false" then inr (Boolean false, st)
      else if String.eqb token "null" then inr (Null, st)
      else inl INVALID_TOKEN
  end
with parseArray (fuel : nat) (acc : list DataType) (st : pstate) {struct fuel}
  : result (DataType * pstate) :=
  match fuel with
  | O => inl OutOfFuel
  | S f =>
      let* '(token, st1) := nextToken_d st in
      if String.eqb token "]" then inr (Array acc, st1)
      else
        let* '(value, st2) := parseType f token st1 in
        parseArray f (acc ++ [value]) st2
  end
with parseDictionary (fuel : nat) (into_cur : bool) (acc : Dict) (st : pstate) {struct fuel}
  : result (Dict * pstate) :=
  match fuel with
  | O => inl OutOfFuel
  | S f =>
      let* '(token, st1) := nextToken_d st in
      if String.eqb token ">>" then inr (dict_cur into_cur acc st1, st1)
      else
        let* key := parseName token in
        let k := match key with Name n => Name_key n | _ => "" end in
        let* '(token2, st2) := nextToken_d st1 in
        if String.eqb token2 ">>" then inr (dict_put into_cur k None acc st2)
        else
          let* '(value, st3) := parseType f token2 st2 in
          let '(acc', st4) := dict_put into_cur k (Some value) acc st3 in
          parseDictionary f into_cur acc' st4
  end.

(** ** Objects, xref, trailer and the top-level loop *)

(** [catch (std::invalid_argument&)] turned into [INVALID_OBJECT]. *)
Definition catch_invalid {A : Type} (r : result A) : result A :=
  match r with inl StdInvalidArgument => inl INVALID_OBJECT | _ => r end.

(** The [while (1)] loop of [parseObject] on the new Object [cur st]. *)
Fixpoint object_loop (fuel : nat) (st : pstate) : result pstate :=
  match fuel with
  | O => inl OutOfFuel
  | S f =>
      let* '(token, st1) := nextToken_d st in
      if String.eqb token "endobj" then inr st1
      else if String.eqb token "<<" then
        let* '(_, st2) := parseDictionary f true [] st1 in object_loop f st2
      else if is_digit19 (first_char token) then
        let* off := tokenToNumber token "000" in
        match off with
        | Integer v _ => object_loop f (set_cur st1 (set_indirect (cur st1) v))
        | _ => inl INVALID_OBJECT
        end
      else
        let* '(res, st2) := parseType f token st1 in
        object_loop f (set_cur st2 (set_odata (cur st2) (odata (cur st2) ++ [res])))
  end.

(** [Parser::parseObject(token)].  The C++ code pushes the Object pointer
    onto [_objects] first and fills it afterwards; nothing reads [_objects]
    meanwhile, so the filled Object is appended at the end. *)
Definition parseObject (fuel : nat) (token : string) (st : pstate) : result pstate :=
  let off := curOffset st in
  let* objectId := catch_invalid (stoi token) in
  let* '(token1, st1) := nextToken_d st in
  let* gen := catch_invalid (stoi token1) in
  let* '(token2, st2) := nextToken_d st1 in
  if negb (String.eqb token2 "obj") then inl INVALID_OBJECT
  else
    let* st3 := object_loop fuel (set_cur st2 (newParsedObject objectId gen off)) in
    inr (set_objects st3 (objects st3 ++ [cur st3])).

Definition parseHeader (st : pstate) : result pstate :=
  let* '(buf, _, st1) := readline 5 false st in
  if negb (String.eqb buf "%PDF-") then inl INVALID_HEADER
  else
    let* '(b1, _, st2) := readline 1 false st1 in
    let major := first_char b1 in
    if negb (is_digit major) then inl INVALID_HEADER
    else
      let* '(b2, _, st3) := readline 1 false st2 in
      if negb (first_char b2 =? ".")%char then inl INVALID_HEADER
      else
        let* '(b3, _, st4) := readline 1 false st3 in
        let minor := first_char b3 in
        if negb (is_digit minor) then inl INVALID_HEADER
        else
          let st5 := finishLine (set_version st4 (digit_val major) (digit_val minor)) in
          inr (set_curOffset st5 (tell st5)).

Definition parseStartXref (st : pstate) : result pstate :=
  let* '(_, st1) := nextToken_d st in
  let* '(token, st2) := nextToken false true st1 in
  if negb (String.prefix "%%EOF" token) then inl INVALID_TRAILER
  else if (5 <? String.length token)%nat then inr (seek_set st2 (curOffset st2 + 5))
  else inr st2.

(** [Parser::parseTrailer()]: the trailer is the Object whose dictionary
    [parseDictionary(&trailer, trailer.dictionary().value())] fills. *)
Definition parseTrailer (fuel : nat) (st : pstate) : result (bool * pstate) :=
  let* '(token, st1) := nextToken_d st in
  if negb (String.eqb token "<<") then inl INVALID_TRAILER
  else
    let* '(_, st2) := parseDictionary fuel true [] (set_cur st1 (trailer st1)) in
    let st3 := set_trailer st2 (cur st2) in
    let* '(token', st4) := nextToken_d st3 in
    if negb (String.eqb token' "startxref") then inr (false, seek_set st4 (curOffset st4))
    else
      let* st5 := parseStartXref st4 in
      inr (true, st5).

Fixpoint xref_loop (fuel : nat) (curId : Z) (st : pstate) : result pstate :=
  match fuel with
  | O => inl OutOfFuel
  | S f =>
      let* '(t0, st1) := nextToken_d st in
      if String.eqb t0 "trailer" then inr st1
      else
        let* '(t1, st2) := nextToken_d st1 in
        if (String.length t0 =? 10)%nat then
          let* '(t2, st3) := nextToken_d st2 in
          let* off := stoi t0 in
          let* gen := stoi t1 in
          let x := mkXRef curId off gen (String.eqb t2 "n") in
          xref_loop f (curId + 1) (set_xrefTable st3 (xrefTable st3 ++ [x]))
        else
          let* id := stoi t0 in
          xref_loop f id st2
  end.

Definition parseXref (fuel : nat) (st : pstate) : result (bool * pstate) :=
  let* st1 := xref_loop fuel 0 (set_xrefOffset st (curOffset st)) in
  parseTrailer fuel st1.

Fixpoint top_loop (fuel pfuel : nat) (secondLine : bool) (st : pstate) : result pstate :=
  match fuel with
  | O => inl OutOfFuel
  | S f =>
      let* '(token, st1) := nextToken false false st in
      if is_empty token then inr st1
      else
        let* st2 :=
          if String.eqb token "xref" then
            let* '(_, s) := parseXref pfuel st1 in inr s
          else if is_digit19 (first_char token) then parseObject pfuel token st1
          else if String.eqb token "startxref" then parseStartXref st1
          else if negb secondLine then inl INVALID_LINE
          else inr (finishLine st1) in
        top_loop f pfuel false st2
  end.

(** [getObject] compares [(id, generation)] (Modelled from the spec:
    [Object::operator==] is in uPDFObject.h, not among the sources); the xref
    synchronisation sets [used] on the first match. *)
Fixpoint mark_used (id gen : Z) (b : bool) (l : list Object) : list Object :=
  match l with
  | [] => []
  | o :: t =>
      if (objectId o =? id) && (generationNumber o =? gen) then set_used o b :: t
      else o :: mark_used id gen b t
  end.

(** [Parser::getObject(objectId, generationNumber)]: the first Object of
    [_objects] equal to [Object(objectId, generationNumber, 0)], [None] for
    the null pointer. *)
Fixpoint getObject (id gen : Z) (l : list Object) : option Object :=
  match l with
  | [] => None
  | o :: t =>
      if (objectId o =? id) && (generationNumber o =? gen) then Some o
      else getObject id gen t
  end.

Definition sync_xref (xs : list XRefValue) (l : list Object) : list Object :=
  fold_left (fun acc x => mark_used (xr_objectId x) (xr_generationNumber x) (xr_used x) acc) xs l.

Definition initial_state (content : string) : pstate :=
  mkState content 0 0 [] emptyObject 0 [] emptyObject 0 0.

(** [Parser::parse(filename)] on the file's content. *)
Definition parse (content : string) : result pstate :=
  let fuel := S (String.length content) in
  let* st1 := parseHeader (initial_state content) in
  let* st2 := top_loop fuel fuel true (seek_set st1 (curOffset st1)) in
  inr (set_objects st2 (sync_xref (xrefTable st2) (objects st2))).

(** ** Serialisation (uPDFTypes.cpp) and the incremental writer *)

(** [std::to_string] / [operator<<] on an integer. *)
Fixpoint dec_digits (fuel : nat) (n : Z) (acc : string) : string :=
  match fuel with
  | O => acc
  | S f =>
      let acc' := String (ascii_of_nat (48 + Z.to_nat (n mod 10))) acc in
      if n / 10 =? 0 then acc' else dec_digits f (n / 10) acc'
  end.

Definition to_string (z : Z) : string :=
  let fuel := S (Z.to_nat (Z.log2 (Z.abs z))) in
  if z <? 0 then "-" ++ dec_digits fuel (- z) "" else dec_digits fuel z "".

(** [std::setw(w)] with [std::setfill('0')], right-aligned. *)
Definition pad0 (w : nat) (s : string) : string :=
  if (String.length s <? w)%nat then
    String.concat "" (repeat "0" (w - String.length s)) ++ s
  else s.

Section Writer.

(** [str()] of the variants whose serialisation is declared in uPDFTypes.h
    (Name, String, HexaString, Reference, Stream, Boolean, Null) and of Real
    (float formatting): the statements below hold for any of them. *)
Variable leaf_str : DataType -> string.

Fixpoint str (v : DataType) : string :=
  match v with
  | Integer n signed =>
      " " ++ (if signed && (0 <=? n) then "+" else "") ++ to_string n
  | Array l =>
      (fix arr (res : string) (l : list DataType) : string :=
         match l with
         | [] => res
         | x :: t => arr ((if (1 <? String.length res)%nat then res ++ " " else res) ++ str x) t
         end) "[" l ++ "]"
  | Dictionary d =>
      "<<" ++
      (fix ents (d : Dict) : string :=
         match d with
         | [] => ""
         | (k, ov) :: t =>
             "/" ++ k ++ (match ov with Some x => str x | None => "" end) ++ ents t
         end) d
      ++ ">>" ++ String "010"%char EmptyString
  | _ => leaf_str v
  end.

(** [Dictionary::str()] *)
Definition Dictionary_str (d : Dict) : string := str (Dictionary d).

(** [Object::str()]; [isIndirect()] is "an indirect offset is set". *)
Definition Object_str (o : Object) : string :=
  to_string (objectId o) ++ " " ++ to_string (generationNumber o) ++ " obj" ++ String "010"%char EmptyString
  ++ (match indirectOffset o with
      | Some n => "   " ++ to_string n ++ String "010"%char EmptyString
      | None =>
          (match odict o with [] => "" | d => Dictionary_str d end)
          ++ String.concat "" (map str (odata o))
      end)
  ++ "endobj" ++ String "010"%char EmptyString.

Definition CRLF : string := String "013"%char (String "010"%char EmptyString).
Definition LF : string := String "010"%char EmptyString.

(** The [for] loop of [writeUpdate]: bytes of the target file, xref text,
    count of new Objects and [curOffset]. *)
Fixpoint write_new (l : list Object) (out xref : string) (nb : nat) (co : Z)
  : string * string * nat * Z :=
  match l with
  | [] => (out, xref, nb, co)
  | o :: t =>
      if negb (isNew o) then write_new t out xref nb co
      else
        let objStr := Object_str o in
        let off := Z.of_nat (String.length out) in
        write_new t (out ++ objStr)
          (xref ++ to_string (objectId o) ++ " 1" ++ LF
                ++ pad0 10 (to_string off) ++ " " ++ pad0 5 (to_string (generationNumber o))
                ++ " n" ++ CRLF)
          (S nb) off
  end.

(** [Parser::writeUpdate(filename)]: [target] is the content of the file
    opened with [O_APPEND|O_CREAT] (empty if it did not exist); the result
    is its content once closed, and the parser state afterwards.
    Modelled from the spec: [Object::deleteKey] (uPDFObject.h, not among
    the sources), taken as removing the key from the trailer's dictionary,
    which [Dictionary::addData] then sets again. *)
Definition writeUpdate (st : pstate) (target : string) : string * pstate :=
  let out0 := target ++ String "013"%char EmptyString in
  let '(out1, xref, nb, co) := write_new (objects st) out0 ("xref" ++ LF) 0 (curOffset st) in
  if (nb =? 0)%nat then (out0, st)
  else
    let newXrefOffset := Z.of_nat (String.length out1) in
    let d := map_insert "Prev" (Some (Integer (wrap32 (xrefOffset st)) false))
                        (map_delete "Prev" (odict (trailer st))) in
    let out := out1 ++ xref ++ "trailer" ++ LF ++ Dictionary_str d
               ++ "startxref" ++ LF ++ to_string newXrefOffset ++ LF ++ "%%EOF" in
    (out, set_curOffset (set_trailer st (set_odict (trailer st) d)) co).

(** The [for] loop of [Parser::write(filename, false)]: every Object is
    written, its xref entry flagged [n] or [f] by [used()]. *)
Fixpoint write_all (l : list Object) (out xref : string) (nb : nat) (co : Z)
  : string * string * nat * Z :=
  match l with
  | [] => (out, xref, nb, co)
  | o :: t =>
      let objStr := Object_str o in
      let off := Z.of_nat (String.length out) in
      write_all t (out ++ objStr)
        (xref ++ to_string (objectId o) ++ " 1" ++ LF
              ++ pad0 10 (to_string off) ++ " " ++ pad0 5 (to_string (generationNumber o))
              ++ (if used o then " n" else " f") ++ CRLF)
        (S nb) off
  end.

(** The text [snprintf] formats from
    ["%%PDF-%d.%d\r%%%c%c%c%c\r\n"] with the version and the bytes
    [0xe2 0xe3 0xcf 0xd3]. *)
Definition header_str (st : pstate) : string :=
  "%PDF-" ++ to_string (version_major st) ++ "." ++ to_string (version_minor st)
  ++ String "013"%char ("%" ++ String "226"%char (String "227"%char
       (String "207"%char (String "211"%char CRLF)))).

(** [::write(newFd, header, ret)] with [char header[18]]: [snprintf] keeps
    17 bytes and a NUL, and returns the length of the whole text; up to 18
    bytes are read inside [header], a longer [ret] reads past its end
    (undefined behaviour, [None]). *)
Definition header_bytes (h : string) : option string :=
  if (String.length h <=? 17)%nat then Some h
  else if (String.length h =? 18)%nat then
    Some (String.substring 0 17 h ++ String "000"%char EmptyString)
  else None.

(** [Parser::write(filename, false)]: the content of the truncated file
    once closed, and the parser state afterwards; [None] where the header
    write is undefined.  [nbObjects] is an [int]: it is not wrapped, the
    count of Objects staying far below [INT_MAX].
    Modelled from the spec: [Object::deleteKey] as in [writeUpdate]. *)
Definition writeFull (st : pstate) : option (string * pstate) :=
  match header_bytes (header_str st) with
  | None => None
  | Some out0 =>
      let '(out1, xref, nb, co) :=
        write_all (objects st) out0
          ("xref" ++ LF ++ "0 1 f" ++ CRLF ++ "0000000000 65535 f" ++ CRLF) 1 (curOffset st) in
      let newXrefOffset := Z.of_nat (String.length out1) in
      let d := map_delete "XRefStm"
                 (map_insert "Size" (Some (Integer (Z.of_nat nb) false))
                    (map_delete "Size" (map_delete "Prev" (odict (trailer st))))) in
      let out := out1 ++ xref ++ "trailer" ++ LF ++ Dictionary_str d
                 ++ "startxref" ++ LF ++ to_string newXrefOffset ++ LF ++ "%%EOF" in
      Some (out, set_curOffset (set_trailer st (set_odict (trailer st) d)) co)
  end.

End Writer.

(** ** Auxiliary definitions for the statements *)

(** [a] and [b] agree on everything but the cursor and [curOffset]. *)
Definition frame (a b : pstate) : Prop :=
  file b = file a /\ objects b = objects a /\ trailer b = trailer a
  /\ xrefOffset b = xrefOffset a /\ xrefTable b = xrefTable a /\ cur b = cur a
  /\ version_major b = version_major a /\ version_minor b = version_minor a.

(** Strict ascending order of [std::map] keys. *)
Definition key_lt (a b : string * option DataType) : Prop := String.compare (fst a) (fst b) = Lt.

(** One serialised entry of [Dictionary::str]. *)
Definition entry_str (leaf_str : DataType -> string) (e : string * option DataType) : string :=
  "/" ++ fst e ++ (match snd e with Some x => str leaf_str x | None => "" end).

(** The bytes from the cursor to the end of the file. *)
Definition rest (st : pstate) : string := String.substring (pos st) (remaining st) (file st).

(** The parenthesis counting of spec §4.2.5 over the bytes [s], starting
    from the flag [escaped] and the nesting counter [count]: whether an
    unescaped [)] brings the counter to zero somewhere in [s]. *)
Fixpoint paren_closes (escaped : bool) (count : Z) (s : string) : bool :=
  match s with
  | EmptyString => false
  | String c t =>
      let count' :=
        if (c =? "(")%char && negb escaped then count + 1
        else if (c =? ")")%char && negb escaped then count - 1
        else count in
      if (c =? ")")%char && negb escaped && (count' =? 0) then true
      else paren_closes (if (c =? "\")%char && escaped then false else (c =? "\")%char) count' t
  end.

(** A token made of decimal digits only, and its mathematical value. *)
Fixpoint all_digits (s : string) : bool :=
  match s with EmptyString => true | String c t => is_digit c && all_digits t end.

Definition decimal_value (s : string) : Z :=
  fold_left (fun acc c => acc * 10 + digit_val c) (list_ascii_of_string s) 0.

(** The loop states of [nextToken] reachable from the state [st0]: the
    initial [c = 0], [res = ""], then the iterations that continue. *)
Inductive nt_reach (eof rc : bool) (st0 : pstate) : ascii -> string -> pstate -> Prop :=
| nt_reach_init : nt_reach eof rc st0 "000"%char "" st0
| nt_reach_step : forall c res st c' res' st',
    nt_reach eof rc st0 c res st -> nt_body eof rc c res st = NtCont c' res' st' ->
    nt_reach eof rc st0 c' res' st'.

(** While [nextToken] accumulates a token [res], [curOffset] is the
    offset of its first byte, the cursor is just after its last byte, and
    its first byte is not one of the delimiters that end a token at once. *)
Definition nt_tok_inv (res : string) (st : pstate) : Prop :=
  res <> "" ->
  0 <= curOffset st /\ pos st = (Z.to_nat (curOffset st) + String.length res)%nat
  /\ String.substring (Z.to_nat (curOffset st)) (String.length res) (file st) = res
  /\ in_chars (first_char res) start_delims = false.

(** What is known when the loop of [nextToken] stops on [res]. *)
Definition nt_tok_out (eof : bool) (res : string) (st : pstate) : Prop :=
  (eof = true -> res <> "") /\
  (res <> "" ->
     0 <= curOffset st
     /\ String.substring (Z.to_nat (curOffset st)) (String.length res) (file st) = res
     /\ (res = "<" \/ res = ">" -> pos st = S (Z.to_nat (curOffset st)))).

(** A parser state reading [content] at byte [p], [o] being the Object
    under construction. *)
Definition state_at (content : string) (p : nat) (o : Object) : pstate :=
  set_cur (set_pos (initial_state content) p) o.

(** The first example of spec §8: one Object holding a three-byte stream;
    [stream_example_state] is the parser right after the [stream] keyword
    and its end of line, the Object's dictionary being [<</Length 3>>]. *)
Definition stream_example : string :=
  "%PDF-1.4" ++ LF ++ "1 0 obj<</Length 3>>stream" ++ LF ++ "abc" ++ LF
  ++ "endstream" ++ LF ++ "endobj" ++ LF.

Definition stream_example_state : pstate :=
  state_at stream_example 36 (set_odict emptyObject [("Length", Some (Integer 3 false))]).

(** The parsed document of [stream_example] (the initial state on a parse
    error, which does not happen). *)
Definition parsed_example : pstate :=
  match parse stream_example with inr s => s | inl _ => initial_state "" end.

(** A document holding one new Object (5 0) whose trailer, read from an
    xref section at offset 1000, has the entries [Root] and [Size]. *)
Definition update_example_state : pstate :=
  set_trailer
    (set_objects (set_xrefOffset (initial_state "") 1000)
       [mkObject 5 0 0 [] [] None true true])
    (set_odict emptyObject [("Root", Some (Reference 1 0)); ("Size", Some (Integer 43 false))]).

(** A file defining the Object [1 0] twice. *)
Definition duplicate_example : string :=
  "%PDF-1.4" ++ LF ++ "1 0 obj" ++ LF ++ "true" ++ LF ++ "endobj" ++ LF
  ++ "1 0 obj" ++ LF ++ "false" ++ LF ++ "endobj" ++ LF.

(** The scanner right after the token [1] of [1 2 X] and a line feed. *)
Definition lookahead_example_state : pstate :=
  state_at ("1 2 X" ++ LF) 1 emptyObject.

(** A trailer dictionary followed by an Object instead of [startxref]. *)
Definition trailer_example : string :=
  "<</Size 1>>" ++ LF ++ "2 0 obj" ++ LF.

(** The scanner on [ 1-2 ]: the state after the token's first byte [1]. *)
Definition sign_example : pstate := state_at " 1-2 " 0 emptyObject.
Definition sign_example_mid : pstate := set_curOffset (set_pos sign_example 2) 1.

(** Every byte of [s] satisfies [p]. *)
Fixpoint str_forallb (p : ascii -> bool) (s : string) : bool :=
  match s with EmptyString => true | String c t => p c && str_forallb p t end.

(** A byte that may stand in a token read without comments: neither white
    space (NUL included) nor [%]. *)
Definition token_byte (c : ascii) : bool := negb (is_white c) && negb (c =? "%")%char.

(** The tokens made of a delimiter that ends a token at once. *)
Definition delim_tokens : list string := ["<"; ">"; "["; "]"; "("; ")"; "<<"; ">>"].

(** The [(id, generation)] key of an xref entry matches. *)
Definition xref_matches (id gen : Z) (x : XRefValue) : bool :=
  (xr_objectId x =? id) && (xr_generationNumber x =? gen).

(** One entry of the xref section the writers build, for the Object [o]
    written at byte [off], with the flag [" n"] or [" f"]. *)
Definition xref_entry (flag : string) (o : Object) (off : Z) : string :=
  to_string (objectId o) ++ " 1" ++ LF
  ++ pad0 10 (to_string off) ++ " " ++ pad0 5 (to_string (generationNumber o))
  ++ flag ++ CRLF.

(** The bytes [s] stand in [out] at the offset [off]. *)
Definition written_at (out : string) (off : Z) (s : string) : Prop :=
  0 <= off /\ String.substring (Z.to_nat off) (String.length s) out = s.

(** The scanner before [ <</A 1>>], and after its first token. *)
Definition token_example : pstate := state_at " <</A 1>>" 0 emptyObject.
Definition token_example_after : pstate :=
  match nextToken true false token_example with inr (_, s) => s | inl _ => token_example end.

(** [parseHexaString] and [parseString] right after their opening byte. *)
Definition hexa_example : pstate := state_at "<0A1f>]" 1 emptyObject.
Definition hexa_open_example : pstate := state_at "<0A1f" 1 emptyObject.
Definition string_example : pstate := state_at "(a(b)c) x" 1 emptyObject.

(** A file starting with an empty line before its header. *)
Definition header_example : pstate := initial_state (LF ++ "%PDF-1.7" ++ LF ++ "1 0 obj").

(** An array [[1 /A]] after its [[], and what [parseType] makes of it. *)
Definition array_example : pstate := state_at "1 /A]" 0 emptyObject.
Definition array_example_parsed : DataType * pstate :=
  match parseType 5 "[" array_example with inr p => p | inl _ => (Null, array_example) end.

(** Modelled from the spec (the dictionary C1 describes): entries kept in
    insertion order, a new key going last and a key already present getting
    the new value in its place. *)
Fixpoint ins_insert (k : string) (v : option DataType) (g : Dict) : Dict :=
  match g with
  | [] => [(k, v)]
  | (k', v') :: t => if String.eqb k k' then (k, v) :: t else (k', v') :: ins_insert k v t
  end.

(** The [std::map] holding the entries of [g]: each inserted in turn. *)
Definition sort_dict (g : Dict) : Dict :=
  fold_left (fun m e => map_insert (fst e) (snd e) m) g [].

(** [parseDictionary] collecting the entries it reads in an
    insertion-ordered dictionary [g] (the spec's words) instead of the
    [std::map]: same tokens, same values, and the same effect on the state
    (the current Object's dictionary, when that is the one filled, is
    still updated as the code does, since [parseStream] reads it). *)
Fixpoint parseDictionary_ins (fuel : nat) (into_cur : bool) (g : Dict) (st : pstate)
  : result (Dict * pstate) :=
  match fuel with
  | O => inl OutOfFuel
  | S f =>
      let* '(token, st1) := nextToken_d st in
      if String.eqb token ">>" then inr (g, st1)
      else
        let* key := parseName token in
        let k := match key with Name n => Name_key n | _ => "" end in
        let* '(token2, st2) := nextToken_d st1 in
        if String.eqb token2 ">>" then inr (ins_insert k None g, snd (dict_put into_cur k None [] st2))
        else
          let* '(value, st3) := parseType f token2 st2 in
          parseDictionary_ins f into_cur (ins_insert k (Some value) g)
            (snd (dict_put into_cur k (Some value) [] st3))
  end.

(** What holds of [res] while [nextToken] (without comments) accumulates
    it, and when its loop stops. *)
Definition tok_bytes_inv (res : string) : Prop :=
  str_forallb token_byte res = true
  /\ (res = "" \/ in_chars (first_char res) start_delims = false).

Definition tok_bytes_out (res : string) : Prop :=
  str_forallb token_byte res = true
  /\ (in_chars (first_char res) start_delims = true -> res = String (first_char res) "").

(** * Proofs *)

(** ** Frame: the scanner and the value parser only move the cursor and
       [curOffset] *)


Lemma frame_refl : forall a, frame a a.
Proof. intros a; repeat split. Qed.

Lemma frame_trans : forall a b c, frame a b -> frame b c -> frame a c.
Proof.
  intros a b c (H1 & H2 & H3 & H4 & H5 & H6 & H7 & H8) (G1 & G2 & G3 & G4 & G5 & G6 & G7 & G8).
  repeat split; congruence.
Qed.

Lemma frame_set_pos : forall a p, frame a (set_pos a p).
Proof. intros; repeat split. Qed.

Lemma frame_set_curOffset : forall a o, frame a (set_curOffset a o).
Proof. intros; repeat split. Qed.

Lemma frame_eq : forall a b, frame a b -> b = set_curOffset (set_pos a (pos b)) (curOffset b).
Proof.
  intros [] [] (H1 & H2 & H3 & H4 & H5 & H6 & H7 & H8); simpl in *; subst; reflexivity.
Qed.

Lemma read_frame : forall st c st', read st = Some (c, st') -> frame st st'.
Proof.
  unfold read; intros st c st' H; destruct (String.get _ _); inversion H; subst.
  apply frame_set_pos.
Qed.

Lemma seek_set_frame : forall st o, frame st (seek_set st o).
Proof. unfold seek_set; intros; destruct (o <? 0); [apply frame_refl | apply frame_set_pos]. Qed.

Lemma seek_back1_frame : forall st, frame st (seek_back1 st).
Proof. intros; apply frame_set_pos. Qed.

Create HintDb frame.

#[local] Hint Resolve frame_refl frame_set_pos frame_set_curOffset seek_set_frame
  seek_back1_frame read_frame : frame.

(** Unfold the binds of a hypothesis [H : _ = inr _] and split its cases. *)
Ltac split_hyp H :=
  repeat (unfold bindr in H;
          match type of H with
          | context [match ?x with _ => _ end] => let E := fresh "E" in destruct x eqn:E
          | context [if ?b then _ else _] => let E := fresh "E" in destruct b eqn:E
          end; try discriminate H).

Lemma finishLine_loop_frame : forall fuel st, frame st (finishLine_loop fuel st).
Proof.
  induction fuel as [|f IH]; intros st; simpl; [apply frame_refl|].
  destruct (read st) as [[c st1]|] eqn:E; [|apply frame_refl].
  destruct (is_newline c); eauto using frame_trans with frame.
Qed.

Lemma finishLine_frame : forall st, frame st (finishLine st).
Proof.
  intros st; unfold finishLine.
  pose proof (finishLine_loop_frame (S (remaining st)) st) as H.
  destruct (read _) as [[c st2]|] eqn:E; [|exact H].
  destruct (is_newline c); eauto 6 using frame_trans with frame.
Qed.

#[local] Hint Resolve finishLine_frame : frame.

Lemma comment_loop_frame : forall fuel eof res st r st',
  comment_loop fuel eof res st = inr (r, st') -> frame st st'.
Proof.
  induction fuel as [|f IH]; intros eof res st r st' H; simpl in H; [discriminate|].
  destruct (read st) as [[c st1]|] eqn:E.
  - destruct (is_newline c).
    + inversion H; subst; eauto with frame.
    + eapply frame_trans; [eapply read_frame; eauto | eapply IH; eauto].
  - destruct eof; inversion H; subst; apply frame_refl.
Qed.

Lemma nt_body_frame : forall eof rc c res st,
  match nt_body eof rc c res st with
  | NtCont _ _ st' | NtBreak _ st' => frame st st'
  | NtErr _ => True
  end.
Proof.
  intros eof rc c res st; unfold nt_body.
  destruct (read st) as [[c1 st1]|] eqn:E; [|destruct eof; auto; apply frame_refl].
  assert (F1 : frame st st1) by eauto with frame.
  destruct (c1 =? "%")%char.
  - destruct rc.
    + destruct (comment_loop _ _ _ _) as [e|[r st3]] eqn:C; auto.
      apply comment_loop_frame in C.
      eapply frame_trans; [exact F1|]; eapply frame_trans; [|exact C]; apply frame_set_curOffset.
    + destruct (is_empty res); eapply frame_trans; eauto with frame.
  - repeat match goal with |- context [if ?b then _ else _] => destruct b end;
      eauto using frame_trans with frame.
Qed.

Lemma nt_loop_frame : forall fuel eof rc c res st r st',
  nt_loop fuel eof rc c res st = inr (r, st') -> frame st st'.
Proof.
  induction fuel as [|f IH]; intros eof rc c res st r st' H; simpl in H; [discriminate|].
  pose proof (nt_body_frame eof rc c res st) as B.
  destruct (nt_body eof rc c res st) as [c' res' st1|res' st1|e]; [| |discriminate].
  - eapply frame_trans; [exact B | eapply IH; eauto].
  - inversion H; subst; exact B.
Qed.

Lemma nt_digraph_frame : forall res st, frame st (snd (nt_digraph res st)).
Proof.
  intros res st; unfold nt_digraph.
  destruct (_ || _); [|apply frame_refl].
  destruct (read st) as [[c st1]|] eqn:E; [|apply frame_refl].
  destruct (c =? first_char res)%char; simpl; eauto using frame_trans with frame.
Qed.

Lemma nextToken_frame : forall eof rc st t st',
  nextToken eof rc st = inr (t, st') -> frame st st'.
Proof.
  intros eof rc st t st' H; unfold nextToken in H.
  destruct (nt_loop _ _ _ _ _ _) as [e|[r st1]] eqn:L; [discriminate|].
  inversion H; subst.
  pose proof (nt_digraph_frame r st1) as D; rewrite H1 in D; simpl in D.
  eapply frame_trans; [eapply nt_loop_frame; eauto | exact D].
Qed.

#[local] Hint Resolve nextToken_frame : frame.

Lemma readline_loop_frame : forall fuel size eof buf st b r st',
  readline_loop fuel size eof buf st = inr (b, r, st') -> frame st st'.
Proof.
  induction fuel as [|f IH]; intros size eof buf st b r st' H; simpl in H; [discriminate|].
  destruct size as [|size'].
  - inversion H; subst; apply frame_refl.
  - destruct (read st) as [[c st1]|] eqn:E.
    + assert (F : frame st st1) by eauto with frame.
      destruct (is_newline c); [destruct (is_empty buf)|].
      * eapply frame_trans; [exact F | eapply IH; eauto].
      * inversion H; subst; exact F.
      * eapply frame_trans; [exact F | eapply IH; eauto].
    + destruct eof; inversion H; subst; apply frame_refl.
Qed.

Lemma ps_loop_frame : forall fuel esc cnt res st r st',
  ps_loop fuel esc cnt res st = inr (r, st') -> frame st st'.
Proof.
  induction fuel as [|f IH]; intros esc cnt res st r st' H; simpl in H; [discriminate|].
  destruct (read st) as [[c st1]|] eqn:E; [|inversion H; subst; apply frame_refl].
  assert (F : frame st st1) by eauto with frame.
  destruct (_ && _ && _); [inversion H; subst; exact F|].
  eapply frame_trans; [exact F | eapply IH; eauto].
Qed.

Lemma hex_loop_frame : forall fuel res st r st',
  hex_loop fuel res st = inr (r, st') -> frame st st'.
Proof.
  induction fuel as [|f IH]; intros res st r st' H; simpl in H; [discriminate|].
  destruct (read st) as [[c st1]|] eqn:E; [|inversion H; subst; apply frame_refl].
  assert (F : frame st st1) by eauto with frame.
  destruct (c =? ">")%char; [inversion H; subst; exact F|].
  eapply frame_trans; [exact F | eapply IH; eauto].
Qed.

Lemma endstream_scan_frame : forall fuel st e st',
  endstream_scan fuel st = inr (e, st') -> frame st st'.
Proof.
  induction fuel as [|f IH]; intros st e st' H; simpl in H; [discriminate|].
  unfold bindr, readline in H.
  destruct (readline_loop _ _ _ _ _) as [err|[[buf ret] st1]] eqn:R; [discriminate|].
  apply readline_loop_frame in R.
  destruct (String.index _ _ _).
  - inversion H; subst; eauto using frame_trans with frame.
  - eapply frame_trans; [exact R | eapply IH; eauto].
Qed.

#[local] Hint Resolve readline_loop_frame ps_loop_frame hex_loop_frame endstream_scan_frame : frame.

Lemma parseString_frame : forall st v st', parseString st = inr (v, st') -> frame st st'.
Proof.
  unfold parseString, bindr; intros st v st' H.
  destruct (ps_loop _ _ _ _ _) as [e|[r st1]] eqn:P; inversion H; subst; eauto with frame.
Qed.

Lemma parseHexaString_frame : forall st v st', parseHexaString st = inr (v, st') -> frame st st'.
Proof.
  unfold parseHexaString, bindr; intros st v st' H.
  destruct (hex_loop _ _ _) as [e|[r st1]] eqn:P; [discriminate|].
  destruct (Nat.odd _); inversion H; subst; eauto with frame.
Qed.

Lemma parseStream_frame : forall st v st', parseStream st = inr (v, st') -> frame st st'.
Proof.
  unfold parseStream; intros st v st' H.
  destruct (map_find "Length" _) as [L|]; [|discriminate].
  destruct (hasKey "Filter" _).
  - unfold bindr in H; destruct (endstream_scan _ _) as [e|[x s1]] eqn:S1; inversion H; subst;
      eauto with frame.
  - destruct L as [L|]; [|discriminate].
    destruct L; unfold bindr in H;
      try (destruct (endstream_scan _ _) as [e|[x s1]] eqn:S1; inversion H; subst;
           eauto with frame; fail).
    destruct (nextToken_d _) as [e|[t s1]] eqn:N; [discriminate|].
    apply nextToken_frame in N.
    assert (F1 : frame st s1) by (eapply frame_trans; [apply seek_set_frame | exact N]).
    destruct (String.eqb t "endstream"); [inversion H; subst; exact F1|].
    destruct (endstream_scan _ _) as [e|[x s2]] eqn:S2; inversion H; subst.
    eapply frame_trans; [exact F1|]; eapply frame_trans; [apply seek_set_frame|eauto with frame].
Qed.

Lemma parseNumberOrReference_frame : forall tok st v st',
  parseNumberOrReference tok st = inr (v, st') -> frame st st'.
Proof.
  unfold parseNumberOrReference, bindr; intros tok st v st' H.
  destruct (tokenToNumber tok "000") as [e|res]; [discriminate|].
  destruct res; try (inversion H; subst; apply frame_refl).
  destruct (nextToken_d st) as [e|[t2 s2]] eqn:N2; [discriminate|].
  destruct (nextToken_d s2) as [e|[t3 s3]] eqn:N3; [discriminate|].
  apply nextToken_frame in N2; apply nextToken_frame in N3.
  assert (F : frame st s3) by eauto using frame_trans.
  destruct (tokenToNumber t2 "000") as [[]|[]]; try discriminate;
    try (destruct (String.eqb t3 "R"));
    inversion H; subst; eauto using frame_trans with frame.
Qed.

#[local] Hint Resolve parseString_frame parseHexaString_frame parseStream_frame
  parseNumberOrReference_frame : frame.

(** The value parser, on a fresh dictionary, leaves everything but the
    cursor and [curOffset] untouched. *)
Lemma parse_values_frame : forall fuel,
  (forall tok st v st', parseType fuel tok st = inr (v, st') -> frame st st')
  /\ (forall acc st v st', parseArray fuel acc st = inr (v, st') -> frame st st')
  /\ (forall acc st d st', parseDictionary fuel false acc st = inr (d, st') -> frame st st').
Proof.
  induction fuel as [|f (IHt & IHa & IHd)];
    [split; [|split]; intros; discriminate|].
  split; [|split].
  - intros tok st v st' H; simpl in H.
    destruct (String.eqb tok "<<").
    { unfold bindr in H.
      destruct (parseDictionary f false [] st) as [e|[d s1]] eqn:D; inversion H; subst.
      eapply IHd; eauto. }
    destruct (String.eqb tok "["); [eapply IHa; eauto|].
    destruct (String.eqb tok "("); [eauto with frame|].
    destruct (String.eqb tok "<"); [eauto with frame|].
    destruct (String.eqb tok "stream"); [eauto with frame|].
    destruct (is_digit19 _); [eauto with frame|].
    repeat match type of H with context [if ?b then _ else _] => destruct b end;
      unfold bindr in H;
      repeat match type of H with context [match ?x with _ => _ end] => destruct x end;
      inversion H; subst; apply frame_refl.
  - intros acc st v st' H; simpl in H; unfold bindr in H.
    destruct (nextToken_d st) as [e|[t s1]] eqn:N; [discriminate|]; apply nextToken_frame in N.
    destruct (String.eqb t "]"); [inversion H; subst; exact N|].
    destruct (parseType f t s1) as [e|[x s2]] eqn:T; [discriminate|].
    eapply frame_trans; [exact N|]; eapply frame_trans; [eapply IHt; eauto| eapply IHa; eauto].
  - intros acc st d st' H; simpl in H; unfold bindr in H.
    destruct (nextToken_d st) as [e|[t s1]] eqn:N; [discriminate|]; apply nextToken_frame in N.
    destruct (String.eqb t ">>"); [inversion H; subst; exact N|].
    destruct (parseName t) as [e|key]; [discriminate|].
    destruct (nextToken_d s1) as [e|[t2 s2]] eqn:N2; [discriminate|]; apply nextToken_frame in N2.
    destruct (String.eqb t2 ">>"); [inversion H; subst; eauto using frame_trans|].
    destruct (parseType f t2 s2) as [e|[x s3]] eqn:T; [discriminate|].
    simpl in H.
    eapply frame_trans; [exact N|]; eapply frame_trans; [exact N2|].
    eapply frame_trans; [eapply IHt; eauto| eapply IHd; eauto].
Qed.

(** ** [std::map] order *)


Lemma string_compare_refl : forall s, String.compare s s = Eq.
Proof.
  induction s as [|c s IH]; simpl; [reflexivity|].
  unfold Ascii.compare; rewrite N.compare_refl; exact IH.
Qed.

Lemma string_compare_lt_trans : forall a b c,
  String.compare a b = Lt -> String.compare b c = Lt -> String.compare a c = Lt.
Proof.
  induction a as [|x a IH]; intros [|y b] [|z c]; simpl; intros H1 H2; try discriminate; auto.
  destruct (Ascii.compare x y) eqn:E1; try discriminate;
  destruct (Ascii.compare y z) eqn:E2; try discriminate.
  - apply Ascii.compare_eq_iff in E1, E2; subst.
    rewrite (proj2 (Ascii.compare_eq_iff z z) eq_refl) ||
      (unfold Ascii.compare; rewrite N.compare_refl); eauto.
  - apply Ascii.compare_eq_iff in E1; subst; rewrite E2; reflexivity.
  - apply Ascii.compare_eq_iff in E2; subst; rewrite E1; reflexivity.
  - unfold Ascii.compare in *; rewrite N.compare_lt_iff in *.
    assert (E : (N_of_ascii x < N_of_ascii z)%N) by lia.
    apply N.compare_lt_iff in E; rewrite E; reflexivity.
Qed.

Lemma key_lt_trans : forall a b c, key_lt a b -> key_lt b c -> key_lt a c.
Proof. unfold key_lt; intros; eapply string_compare_lt_trans; eauto. Qed.

Lemma map_insert_hd : forall k v m x,
  HdRel key_lt x m -> String.compare (fst x) k = Lt -> HdRel key_lt x (map_insert k v m).
Proof.
  intros k v [|[k' v'] t] x H Hx; simpl; [constructor; exact Hx|].
  destruct (String.compare k k'); constructor; auto; inversion H; auto.
Qed.

Lemma map_insert_sorted : forall k v m, Sorted key_lt m -> Sorted key_lt (map_insert k v m).
Proof.
  intros k v m H; induction H as [|[k' v'] t Ht IH Hd]; simpl; [repeat constructor|].
  destruct (String.compare k k') eqn:C.
  - apply String.compare_eq_iff in C; subst.
    constructor; [exact Ht|]. inversion Hd; constructor; auto.
  - constructor; [constructor; auto|]. constructor; exact C.
  - constructor; [exact IH|]. apply map_insert_hd; [exact Hd|].
    simpl; rewrite String.compare_antisym, C; reflexivity.
Qed.

Lemma map_delete_incl : forall k m y, In y (map_delete k m) -> In y m.
Proof.
  induction m as [|[k' v'] t IH]; simpl; intros y H; [exact H|].
  destruct (String.eqb k k'); [right; exact H|].
  destruct H as [H|H]; [left; exact H | right; apply IH; exact H].
Qed.

Lemma map_delete_sorted : forall k m, Sorted key_lt m -> Sorted key_lt (map_delete k m).
Proof.
  intros k m H.
  apply StronglySorted_Sorted.
  apply Sorted_StronglySorted in H; [|intros ? ? ?; apply key_lt_trans].
  induction H as [|[k' v'] t Ht IH Hf]; simpl; [constructor|].
  destruct (String.eqb k k'); [exact Ht|].
  constructor; [exact IH|].
  rewrite Forall_forall in *; intros y Hy; apply Hf, (map_delete_incl k); exact Hy.
Qed.

Lemma map_find_insert : forall k v m, map_find k (map_insert k v m) = Some v.
Proof.
  induction m as [|[k' v'] t IH]; simpl; [rewrite String.eqb_refl; reflexivity|].
  destruct (String.compare k k') eqn:C; simpl; try (rewrite String.eqb_refl; reflexivity).
  destruct (String.eqb k k') eqn:E; [|exact IH].
  apply String.eqb_eq in E; subst; rewrite string_compare_refl in C; discriminate.
Qed.

Lemma map_find_insert_other : forall k k' v m,
  k' <> k -> map_find k' (map_insert k v m) = map_find k' m.
Proof.
  intros k k' v m Hne; induction m as [|[k0 v0] t IH]; simpl.
  - apply String.eqb_neq in Hne; rewrite Hne; reflexivity.
  - destruct (String.compare k k0) eqn:C; simpl.
    + apply String.compare_eq_iff in C; subst.
      apply String.eqb_neq in Hne; rewrite Hne; reflexivity.
    + apply String.eqb_neq in Hne; rewrite Hne; reflexivity.
    + rewrite IH; reflexivity.
Qed.

Lemma map_find_insert_cases : forall k k' v m,
  map_find k' (map_insert k v m) = if String.eqb k' k then Some v else map_find k' m.
Proof.
  intros k k' v m; destruct (String.eqb k' k) eqn:E.
  - apply String.eqb_eq in E; subst; apply map_find_insert.
  - apply String.eqb_neq in E; apply map_find_insert_other; exact E.
Qed.

Lemma map_find_none_hd : forall k m x,
  Sorted key_lt (x :: m) -> fst x = k -> map_find k m = None.
Proof.
  intros k m x H Hx.
  apply Sorted_StronglySorted in H; [|intros ? ? ?; apply key_lt_trans].
  inversion H as [|? ? Hs Hf]; subst.
  clear H Hs; induction m as [|[k0 v0] t IH]; simpl; [reflexivity|].
  inversion Hf as [|? ? Hk Ht]; subst.
  destruct (String.eqb (fst x) k0) eqn:E.
  - apply String.eqb_eq in E; unfold key_lt in Hk; simpl in Hk.
    rewrite E, string_compare_refl in Hk; discriminate.
  - apply IH; exact Ht.
Qed.

Lemma str_app_nil_r : forall s, s ++ "" = s.
Proof. induction s as [|c s IH]; simpl; [reflexivity|]; rewrite IH; reflexivity. Qed.

Lemma str_app_assoc : forall a b c, (a ++ b) ++ c = a ++ (b ++ c).
Proof. induction a as [|x a IH]; intros; simpl; [reflexivity|]; rewrite IH; reflexivity. Qed.

Lemma concat_empty_cons : forall x l, String.concat "" (x :: l) = x ++ String.concat "" l.
Proof. intros x [|y l]; simpl; [rewrite str_app_nil_r|]; reflexivity. Qed.

(** ** The byte source seen as the rest of the file *)

Lemma get_none_length : forall s n, String.get n s = None -> (String.length s <= n)%nat.
Proof.
  induction s as [|a t IH]; intros [|n] H; simpl in *; try discriminate; try lia.
  apply IH in H; lia.
Qed.

Lemma get_some_length : forall s n c, String.get n s = Some c -> (n < String.length s)%nat.
Proof.
  induction s as [|a t IH]; intros [|n] c H; simpl in *; try discriminate; try lia.
  apply IH in H; lia.
Qed.

Lemma substring_zero : forall s n, String.substring n 0 s = "".
Proof. induction s as [|a t IH]; intros [|n]; simpl; auto. Qed.

Lemma substring_get_cons : forall s n c,
  String.get n s = Some c ->
  String.substring n (String.length s - n) s
  = String c (String.substring (S n) (String.length s - S n) s).
Proof.
  induction s as [|a t IH]; intros [|n] c H; simpl in H; try discriminate.
  - inversion H; subst; simpl. rewrite Nat.sub_0_r; reflexivity.
  - simpl. apply IH in H. exact H.
Qed.

Lemma read_rest : forall st c st1,
  read st = Some (c, st1) ->
  rest st = String c (rest st1) /\ file st1 = file st /\ pos st1 = S (pos st)
  /\ remaining st = S (remaining st1).
Proof.
  unfold read, rest, remaining; intros st c st1 H.
  destruct (String.get (pos st) (file st)) eqn:G; inversion H; subst; simpl.
  pose proof (get_some_length _ _ _ G).
  repeat split; [apply substring_get_cons; exact G | lia].
Qed.

Lemma read_none_rest : forall st, read st = None -> rest st = "".
Proof.
  unfold read, rest, remaining; intros st H.
  destruct (String.get (pos st) (file st)) eqn:G; [discriminate|].
  apply get_none_length in G. replace (String.length (file st) - pos st)%nat with 0%nat by lia.
  apply substring_zero.
Qed.

Lemma str_snoc_app : forall r c t, snoc r c ++ t = r ++ String c t.
Proof. intros; unfold snoc; rewrite str_app_assoc; reflexivity. Qed.

Lemma ps_loop_unclosed : forall fuel esc cnt res st,
  (remaining st < fuel)%nat -> paren_closes esc cnt (rest st) = false ->
  exists st', ps_loop fuel esc cnt res st = inr (res ++ rest st, st') /\ read st' = None.
Proof.
  induction fuel as [|f IH]; intros esc cnt res st Hf Hc; [lia|]; simpl.
  destruct (read st) as [[c st1]|] eqn:R.
  - destruct (read_rest _ _ _ R) as (Hr & _ & _ & Hrem).
    rewrite Hr in Hc |- *; simpl in Hc.
    destruct (_ && _ && _); [discriminate|].
    destruct (IH _ _ (snoc res c) st1 ltac:(lia) Hc) as [st' [E N]].
    exists st'; rewrite E, str_snoc_app; split; [reflexivity | exact N].
  - exists st; rewrite (read_none_rest _ R), str_app_nil_r; split; [reflexivity | exact R].
Qed.

(** ** Decimal tokens *)

Lemma digits_prefix_all : forall s acc n,
  all_digits s = true ->
  digits_prefix s acc n
  = (fold_left (fun a c => a * 10 + digit_val c) (list_ascii_of_string s) acc,
     (n + String.length s)%nat).
Proof.
  induction s as [|c t IH]; intros acc n H;
    cbn [digits_prefix all_digits list_ascii_of_string fold_left String.length] in *;
    [f_equal; lia|].
  apply andb_prop in H as [Hc Ht]; rewrite Hc, IH by exact Ht.
  replace (10 * acc + digit_val c) with (acc * 10 + digit_val c) by lia.
  f_equal; lia.
Qed.

Lemma all_digits_no_dot : forall s, all_digits s = true -> in_chars "." s = false.
Proof.
  induction s as [|c t IH]; cbn [all_digits in_chars]; intros H; [reflexivity|].
  apply andb_prop in H as [Hc Ht]; rewrite IH by exact Ht.
  destruct ("." =? c)%char eqn:E; [|reflexivity].
  apply Ascii.eqb_eq in E; subst; vm_compute in Hc; discriminate.
Qed.

Lemma fold_digits_nonneg : forall l acc,
  0 <= acc -> Forall (fun c => is_digit c = true) l ->
  0 <= fold_left (fun a c => a * 10 + digit_val c) l acc.
Proof.
  induction l as [|c l IH]; intros acc Ha Hl; simpl; [exact Ha|].
  inversion Hl; subst. apply IH; [|assumption].
  unfold is_digit, digit_val in *. apply andb_prop in H1 as [H1 _].
  apply Nat.leb_le in H1. lia.
Qed.

Lemma all_digits_forall : forall s, all_digits s = true ->
  Forall (fun c => is_digit c = true) (list_ascii_of_string s).
Proof.
  induction s as [|c t IH]; simpl; intros H; [constructor|].
  apply andb_prop in H as [Hc Ht]; constructor; auto.
Qed.

Lemma stoi_digits : forall s,
  s <> "" -> all_digits s = true ->
  stoi s = if decimal_value s <=? INT_MAX then inr (decimal_value s) else inl StdOutOfRange.
Proof.
  intros [|c t] Hne Hd; [congruence|].
  unfold stoi.
  assert (Hc : is_digit c = true) by (simpl in Hd; apply andb_prop in Hd; apply Hd).
  assert (Hsp : is_cspace c = false).
  { revert Hc; unfold is_digit, is_cspace.
    destruct c as [[] [] [] [] [] [] [] []]; vm_compute; congruence. }
  assert (Hsg : (c =? "-")%char = false /\ (c =? "+")%char = false).
  { revert Hc; unfold is_digit.
    destruct c as [[] [] [] [] [] [] [] []]; vm_compute; intuition congruence. }
  simpl skip_space; rewrite Hsp; simpl strip_sign; rewrite (proj1 Hsg), (proj2 Hsg).
  rewrite digits_prefix_all by exact Hd. simpl (0 + _)%nat.
  pose proof (fold_digits_nonneg _ 0 ltac:(lia) (all_digits_forall _ Hd)) as Hn.
  assert (Hn' : 0 <= decimal_value (String c t)) by exact Hn.
  fold (decimal_value (String c t)). unfold INT_MAX, INT_MIN in *.
  destruct (Nat.eqb _ 0) eqn:E; [simpl in E; discriminate|].
  replace (- 2 ^ 31 <=? decimal_value (String c t)) with true
    by (symmetry; apply Z.leb_le; lia).
  reflexivity.
Qed.

(** ** Claims on the value parser *)

(** C10: when the file ends inside a literal string (the nesting counter of
    the parentheses never returns to zero before end of file), [parseString]
    raises nothing: it returns a String holding every byte read up to end of
    file, and the byte source is left at end of file. *)
Theorem parseString_eof_keeps_bytes : forall st,
  paren_closes false 1 (rest st) = false ->
  exists st', parseString st = inr (VString (rest st), st') /\ read st' = None.
Proof.
  intros st H; unfold parseString.
  destruct (ps_loop_unclosed (S (remaining st)) false 1 "" st ltac:(lia) H) as [st' [E N]].
  rewrite E; exists st'; split; [reflexivity | exact N].
Qed.

Lemma parseString_eof_keeps_bytes_witness :
  paren_closes false 1 (rest (state_at "(ab(c)d" 1 emptyObject)) = false /\
  exists st', parseString (state_at "(ab(c)d" 1 emptyObject)
              = inr (VString (rest (state_at "(ab(c)d" 1 emptyObject)), st')
              /\ read st' = None.
Proof.
  split; [vm_compute; reflexivity|].
  apply (parseString_eof_keeps_bytes (state_at "(ab(c)d" 1 emptyObject)).
  vm_compute; reflexivity.
Defined.

(** C9 (as stated): an Integer token whose value fits in 64 bits is not
    always parsed: [2147483648] makes [std::stoi] throw out_of_range. *)
Lemma integer_64bit_counterexample :
  decimal_value "2147483648" < 2 ^ 63 /\
  tokenToNumber "2147483648" "000" = inl StdOutOfRange /\
  parseType 1 "2147483648" (initial_state "") = inl StdOutOfRange.
Proof. vm_compute; repeat split; reflexivity. Qed.

(** C9 (amended): Integer payloads are C++ [int]s read by [std::stoi]: a
    token of decimal digits whose value is at most [INT_MAX] = 2^31-1 gives
    exactly that Integer (negated for a [-] sign, the sign recorded in the
    [signed] flag); a larger value raises std::out_of_range. *)
Theorem tokenToNumber_int32 : forall s,
  s <> "" -> all_digits s = true ->
  (decimal_value s <= INT_MAX ->
     tokenToNumber s "000" = inr (Integer (decimal_value s) false)
     /\ tokenToNumber s "+" = inr (Integer (decimal_value s) true)
     /\ tokenToNumber s "-" = inr (Integer (- decimal_value s) true))
  /\ (INT_MAX < decimal_value s -> tokenToNumber s "000" = inl StdOutOfRange).
Proof.
  intros s Hne Hd.
  pose proof (stoi_digits s Hne Hd) as Hs.
  pose proof (fold_digits_nonneg _ 0 ltac:(lia) (all_digits_forall _ Hd)) as Hn.
  assert (Hn' : 0 <= decimal_value s) by exact Hn.
  unfold tokenToNumber; rewrite (all_digits_no_dot s Hd), Hs.
  split.
  - intros Hv; apply Z.leb_le in Hv as Hv'; rewrite Hv'; cbn [bindr].
    repeat split; try reflexivity.
    cbn [Ascii.eqb Bool.eqb]; simpl negb.
    f_equal; f_equal. unfold wrap32, INT_MAX in *.
    rewrite Z.mod_small by lia. lia.
  - intros Hv; unfold INT_MAX in Hv.
    replace (decimal_value s <=? INT_MAX) with false by (symmetry; apply Z.leb_gt; exact Hv).
    reflexivity.
Qed.

Lemma tokenToNumber_int32_witness :
  (tokenToNumber "2147483647" "000" = inr (Integer 2147483647 false)
   /\ tokenToNumber "2147483647" "+" = inr (Integer 2147483647 true)
   /\ tokenToNumber "2147483647" "-" = inr (Integer (-2147483647) true))
  /\ tokenToNumber "2147483648" "000" = inl StdOutOfRange.
Proof.
  split.
  - exact (proj1 (tokenToNumber_int32 "2147483647" ltac:(discriminate) ltac:(vm_compute; reflexivity))
                 ltac:(vm_compute; discriminate)).
  - exact (proj2 (tokenToNumber_int32 "2147483648" ltac:(discriminate) ltac:(vm_compute; reflexivity))
                 ltac:(vm_compute; reflexivity)).
Defined.

(** C6: on the fast path of [parseStream] (an Integer [Length] in the
    dictionary of the Object, no [Filter], and the token found at
    start + Length is [endstream]) the Stream spans from the cursor
    [start] to [start + Length], so end - start = Length. *)
Theorem parseStream_length_fast_path : forall st len sg st1,
  map_find "Length" (odict (cur st)) = Some (Some (Integer len sg)) ->
  hasKey "Filter" (odict (cur st)) = false ->
  nextToken_d (seek_set st (tell st + len)) = inr ("endstream", st1) ->
  parseStream st = inr (Stream (odict (cur st)) (tell st) (tell st + len), st1)
  /\ (tell st + len) - tell st = len.
Proof.
  intros st len sg st1 HL HF HT; split; [|lia].
  unfold parseStream; rewrite HL, HF, HT; reflexivity.
Qed.

Lemma parseStream_length_fast_path_witness :
  exists st1,
    map_find "Length" (odict (cur stream_example_state)) = Some (Some (Integer 3 false))
    /\ hasKey "Filter" (odict (cur stream_example_state)) = false
    /\ nextToken_d (seek_set stream_example_state (tell stream_example_state + 3))
       = inr ("endstream", st1)
    /\ parseStream stream_example_state
       = inr (Stream (odict (cur stream_example_state)) (tell stream_example_state)
                     (tell stream_example_state + 3), st1)
    /\ (tell stream_example_state + 3) - tell stream_example_state = 3.
Proof.
  assert (H3 : exists st1, nextToken_d (seek_set stream_example_state (tell stream_example_state + 3))
                           = inr ("endstream", st1))
    by (eexists; vm_compute; reflexivity).
  destruct H3 as [st1 H3]; exists st1.
  assert (H1 : map_find "Length" (odict (cur stream_example_state)) = Some (Some (Integer 3 false)))
    by (vm_compute; reflexivity).
  assert (H2 : hasKey "Filter" (odict (cur stream_example_state)) = false)
    by (vm_compute; reflexivity).
  split; [exact H1|]. split; [exact H2|]. split; [exact H3|].
  exact (parseStream_length_fast_path stream_example_state 3 false st1 H1 H2 H3).
Defined.

(** ** Claims on the writer *)

Lemma write_new_no_new : forall leaf l out xref nb co,
  forallb (fun o => negb (isNew o)) l = true ->
  write_new leaf l out xref nb co = (out, xref, nb, co).
Proof.
  intros leaf; induction l as [|o l IH]; intros out xref nb co H; [reflexivity|].
  simpl in H |- *; apply andb_prop in H as [Ho Hl].
  rewrite Ho; apply IH, Hl.
Qed.

(** C4: when no Object of the document is new, [writeUpdate] still appends
    one carriage return to the target file before returning early: the file
    grows by exactly one byte and the parser state is unchanged. *)
Theorem writeUpdate_no_new_appends_cr : forall leaf st target,
  forallb (fun o => negb (isNew o)) (objects st) = true ->
  writeUpdate leaf st target = (target ++ String "013"%char EmptyString, st).
Proof.
  intros leaf st target H; unfold writeUpdate.
  rewrite write_new_no_new by exact H; reflexivity.
Qed.

Lemma writeUpdate_no_new_appends_cr_witness :
  forallb (fun o => negb (isNew o)) (objects parsed_example) = true
  /\ objects parsed_example <> []
  /\ writeUpdate (fun _ => "") parsed_example stream_example
     = (stream_example ++ String "013"%char EmptyString, parsed_example).
Proof.
  assert (H : forallb (fun o => negb (isNew o)) (objects parsed_example) = true)
    by (vm_compute; reflexivity).
  split; [exact H|]. split; [vm_compute; discriminate|].
  exact (writeUpdate_no_new_appends_cr (fun _ => "") parsed_example stream_example H).
Defined.

(** ** Claims on dictionaries *)

(** C1 (as stated): the keys of a parsed dictionary are not serialised in
    insertion order: [/B] is inserted before [/A], yet [/A] is written first. *)
Lemma dictionary_order_counterexample :
  exists d st',
    parseType 10 "<<" (state_at ("/B 1/A 2>> endobj" ++ LF) 0 emptyObject)
      = inr (Dictionary d, st')
    /\ map fst d = ["A"; "B"]
    /\ Dictionary_str (fun _ => "") d = "<</A 2/B 1>>" ++ LF.
Proof.
  eexists; eexists; split; [vm_compute; reflexivity|].
  split; vm_compute; reflexivity.
Qed.

(** Lookups in the two kinds of dictionaries. *)
Lemma map_find_some_in : forall k m v, map_find k m = Some v -> In k (map fst m).
Proof.
  intros k m v; induction m as [|[k0 v0] t IH]; simpl; [discriminate|].
  destruct (String.eqb k k0) eqn:E; [apply String.eqb_eq in E; left; congruence|].
  intros H; right; apply IH, H.
Qed.

Lemma map_find_not_in : forall k m, ~ In k (map fst m) -> map_find k m = None.
Proof.
  intros k m H; destruct (map_find k m) eqn:E; [|reflexivity].
  exfalso; apply H; eapply map_find_some_in; exact E.
Qed.

Lemma map_find_nodup_in : forall k v m,
  NoDup (map fst m) -> (map_find k m = Some v <-> In (k, v) m).
Proof.
  intros k v m; induction m as [|[k0 v0] t IH]; simpl; intros Hn; [split; [discriminate|tauto]|].
  inversion Hn as [|? ? Hk Ht]; subst.
  destruct (String.eqb k k0) eqn:E.
  - apply String.eqb_eq in E; subst; split.
    + intros H; injection H as <-; left; reflexivity.
    + intros [H|H]; [injection H as <-; reflexivity|].
      exfalso; apply Hk; apply (in_map fst) in H; exact H.
  - apply String.eqb_neq in E; rewrite IH by exact Ht; split; [tauto|].
    intros [H|H]; [injection H as <- _; congruence | exact H].
Qed.

Lemma ins_insert_find : forall k k' v g,
  map_find k' (ins_insert k v g) = if String.eqb k' k then Some v else map_find k' g.
Proof.
  intros k k' v g; induction g as [|[k0 v0] t IH]; simpl; [reflexivity|].
  destruct (String.eqb k k0) eqn:E; simpl.
  - apply String.eqb_eq in E; subst; destruct (String.eqb k' k0); reflexivity.
  - rewrite IH. destruct (String.eqb k' k0) eqn:E1, (String.eqb k' k) eqn:E2; try reflexivity.
    apply String.eqb_eq in E1, E2; subst; rewrite String.eqb_refl in E; discriminate.
Qed.

Lemma ins_insert_keys : forall k v g x,
  In x (map fst (ins_insert k v g)) <-> x = k \/ In x (map fst g).
Proof.
  intros k v g x; induction g as [|[k0 v0] t IH]; simpl; [firstorder congruence|].
  destruct (String.eqb k k0) eqn:E; simpl.
  - apply String.eqb_eq in E; subst; firstorder congruence.
  - rewrite IH; firstorder congruence.
Qed.

Lemma ins_insert_nodup : forall k v g, NoDup (map fst g) -> NoDup (map fst (ins_insert k v g)).
Proof.
  intros k v g; induction g as [|[k0 v0] t IH]; simpl; intros Hn.
  - constructor; [intros []|constructor].
  - inversion Hn as [|? ? Hk Ht]; subst.
    destruct (String.eqb k k0) eqn:E; simpl.
    + apply String.eqb_eq in E; subst; exact Hn.
    + constructor; [|apply IH, Ht].
      rewrite ins_insert_keys; intros [H|H]; [|exact (Hk H)].
      subst; rewrite String.eqb_refl in E; discriminate.
Qed.

Lemma sort_dict_fold_sorted : forall g m,
  Sorted key_lt m -> Sorted key_lt (fold_left (fun m e => map_insert (fst e) (snd e) m) g m).
Proof.
  induction g as [|e t IH]; intros m H; simpl; [exact H|].
  apply IH, map_insert_sorted, H.
Qed.

Lemma sort_dict_sorted : forall g, Sorted key_lt (sort_dict g).
Proof. intros g; apply sort_dict_fold_sorted; constructor. Qed.

Lemma sort_dict_fold_find : forall k g m,
  NoDup (map fst g) ->
  map_find k (fold_left (fun m e => map_insert (fst e) (snd e) m) g m)
  = match map_find k g with Some v => Some v | None => map_find k m end.
Proof.
  intros k; induction g as [|[k0 v0] t IH]; intros m Hn; simpl; [reflexivity|].
  inversion Hn as [|? ? Hk Ht]; subst.
  rewrite IH by exact Ht; rewrite map_find_insert_cases.
  destruct (String.eqb k k0) eqn:E; [|reflexivity].
  apply String.eqb_eq in E; subst; rewrite map_find_not_in by exact Hk; reflexivity.
Qed.

Lemma sort_dict_find : forall k g, NoDup (map fst g) -> map_find k (sort_dict g) = map_find k g.
Proof.
  intros k g Hn; unfold sort_dict; rewrite sort_dict_fold_find by exact Hn.
  destruct (map_find k g); reflexivity.
Qed.

(** Two sorted maps with the same lookups are the same list. *)
Lemma sorted_in_keys : forall x t k,
  Sorted key_lt (x :: t) -> In k (map fst t) -> String.compare (fst x) k = Lt.
Proof.
  intros x t k H Hk.
  apply Sorted_StronglySorted in H; [|intros ? ? ?; apply key_lt_trans].
  inversion H as [|? ? _ Hf]; subst.
  apply in_map_iff in Hk; destruct Hk as (y & <- & Hy).
  rewrite Forall_forall in Hf; exact (Hf y Hy).
Qed.

Lemma compare_lt_irrefl : forall a b, String.compare a b = Lt -> String.compare b a = Lt -> False.
Proof.
  intros a b H1 H2; pose proof (string_compare_lt_trans _ _ _ H1 H2) as H.
  rewrite string_compare_refl in H; discriminate.
Qed.

Lemma sorted_ext : forall a b,
  Sorted key_lt a -> Sorted key_lt b -> (forall k, map_find k a = map_find k b) -> a = b.
Proof.
  induction a as [|[k1 v1] a IH]; intros [|[k2 v2] b] Ha Hb Hf.
  - reflexivity.
  - specialize (Hf k2); simpl in Hf; rewrite String.eqb_refl in Hf; discriminate.
  - specialize (Hf k1); simpl in Hf; rewrite String.eqb_refl in Hf; discriminate.
  - assert (Hk : k1 = k2).
    { destruct (String.compare k1 k2) eqn:C.
      - apply String.compare_eq_iff in C; exact C.
      - exfalso. pose proof (Hf k1) as F; simpl in F; rewrite String.eqb_refl in F.
        destruct (String.eqb k1 k2) eqn:E.
        + apply String.eqb_eq in E; subst; rewrite string_compare_refl in C; discriminate.
        + symmetry in F; apply map_find_some_in in F.
          exact (compare_lt_irrefl _ _ C (sorted_in_keys (k2, v2) b k1 Hb F)).
      - exfalso. pose proof (Hf k2) as F; simpl in F; rewrite String.eqb_refl in F.
        destruct (String.eqb k2 k1) eqn:E.
        + apply String.eqb_eq in E; subst; rewrite string_compare_refl in C; discriminate.
        + apply map_find_some_in in F.
          rewrite String.compare_antisym in C; destruct (String.compare k2 k1) eqn:C'; try discriminate.
          exact (compare_lt_irrefl _ _ C' (sorted_in_keys (k1, v1) a k2 Ha F)). }
    subst k2.
    assert (Hv : v1 = v2).
    { pose proof (Hf k1) as F; simpl in F; rewrite String.eqb_refl in F; congruence. }
    subst v2; f_equal.
    apply IH; [inversion Ha; assumption | inversion Hb; assumption|].
    intros k; destruct (String.eqb k k1) eqn:E.
    + apply String.eqb_eq in E; subst.
      rewrite (map_find_none_hd k1 a (k1, v1) Ha eq_refl).
      rewrite (map_find_none_hd k1 b (k1, v1) Hb eq_refl); reflexivity.
    + pose proof (Hf k) as F; simpl in F; rewrite E in F; exact F.
Qed.

(** Inserting into the [std::map] of an insertion-ordered dictionary gives
    the [std::map] of the insertion-ordered dictionary after the insert. *)
Lemma sort_dict_ins_insert : forall k v g,
  NoDup (map fst g) -> map_insert k v (sort_dict g) = sort_dict (ins_insert k v g).
Proof.
  intros k v g Hn; apply sorted_ext.
  - apply map_insert_sorted, sort_dict_sorted.
  - apply sort_dict_sorted.
  - intros x; rewrite map_find_insert_cases, !sort_dict_find, ins_insert_find;
      [reflexivity | apply ins_insert_nodup, Hn | exact Hn].
Qed.

(** The [std::map] of a dictionary does not depend on the order of its
    entries. *)
Lemma sort_dict_perm : forall g g2,
  NoDup (map fst g) -> Permutation g2 g -> sort_dict g2 = sort_dict g.
Proof.
  intros g g2 Hn Hp.
  assert (Hn2 : NoDup (map fst g2)).
  { eapply Permutation_NoDup; [apply Permutation_map, Permutation_sym, Hp | exact Hn]. }
  apply sorted_ext; [apply sort_dict_sorted | apply sort_dict_sorted|].
  intros k; rewrite !sort_dict_find by assumption.
  destruct (map_find k g) as [v|] eqn:E.
  - apply map_find_nodup_in; [exact Hn2|].
    apply (Permutation_in _ (Permutation_sym Hp)), map_find_nodup_in; assumption.
  - destruct (map_find k g2) as [v|] eqn:E2; [|reflexivity].
    apply map_find_nodup_in in E2; [|exact Hn2].
    apply (Permutation_in _ Hp) in E2; apply map_find_nodup_in in E2; [congruence | exact Hn].
Qed.

(** What [dict_put] stores, and that the state it leaves does not depend on
    the fresh map. *)
Lemma dict_put_cur : forall into_cur k v acc st,
  dict_cur into_cur (fst (dict_put into_cur k v acc st)) (snd (dict_put into_cur k v acc st))
  = map_insert k v (dict_cur into_cur acc st).
Proof. intros [] k v acc st; reflexivity. Qed.

Lemma dict_put_state : forall into_cur k v acc st,
  snd (dict_put into_cur k v acc st) = snd (dict_put into_cur k v [] st).
Proof. intros [] k v acc st; reflexivity. Qed.

Lemma dict_cur_frame : forall into_cur acc st st',
  frame st st' -> dict_cur into_cur acc st' = dict_cur into_cur acc st.
Proof.
  intros [] acc st st' H; [|reflexivity].
  destruct H as (_ & _ & _ & _ & _ & Hc & _); simpl; rewrite Hc; reflexivity.
Qed.

(** C1 (amended): a Dictionary is a [std::map]. Whichever dictionary
    [parseDictionary] fills (a fresh one for a [<<] value, or the current
    Object's own, for an object or the trailer), reading the same bytes as
    the insertion-ordered dictionary of the spec gives the same result and
    the same state, and the map obtained holds the entries of that
    insertion-ordered dictionary (a later entry with the same key having
    replaced the earlier value), in strictly ascending byte-wise key order
    instead of insertion order. What [Dictionary::str] writes is therefore
    the same for any order in which these entries are inserted. *)
Theorem parsed_dictionary_sorted_str : forall leaf fuel into_cur acc g st,
  NoDup (map fst g) ->
  dict_cur into_cur acc st = sort_dict g ->
  match parseDictionary fuel into_cur acc st, parseDictionary_ins fuel into_cur g st with
  | inr (d, st'), inr (g', st'') =>
      st' = st'' /\ NoDup (map fst g') /\ d = sort_dict g' /\ Sorted key_lt d
      /\ (forall g2, Permutation g2 g' -> Dictionary_str leaf (sort_dict g2) = Dictionary_str leaf d)
  | inl e, inl e' => e = e'
  | _, _ => False
  end.
Proof.
  intros leaf fuel; induction fuel as [|f IH]; intros into_cur acc g st Hn Hd; [reflexivity|].
  assert (Fin : forall g' (st' : pstate), NoDup (map fst g') ->
            st' = st' /\ NoDup (map fst g') /\ sort_dict g' = sort_dict g' /\ Sorted key_lt (sort_dict g')
            /\ (forall g2, Permutation g2 g' ->
                  Dictionary_str leaf (sort_dict g2) = Dictionary_str leaf (sort_dict g'))).
  { intros g' st' H; repeat split; [exact H | apply sort_dict_sorted|].
    intros g2 P; rewrite (sort_dict_perm g' g2 H P); reflexivity. }
  cbn [parseDictionary parseDictionary_ins]; unfold bindr.
  destruct (nextToken_d st) as [e|[t s1]] eqn:N; [reflexivity|].
  apply nextToken_frame in N.
  rewrite <- (dict_cur_frame into_cur acc st s1 N) in Hd.
  destruct (String.eqb t ">>").
  { rewrite Hd; apply Fin, Hn. }
  destruct (parseName t) as [e|key]; [reflexivity|].
  set (k := match key with Name n => Name_key n | _ => "" end).
  destruct (nextToken_d s1) as [e|[t2 s2]] eqn:N2; [reflexivity|].
  apply nextToken_frame in N2.
  rewrite <- (dict_cur_frame into_cur acc s1 s2 N2) in Hd.
  destruct (String.eqb t2 ">>").
  { rewrite (surjective_pairing (dict_put into_cur k None acc s2)), dict_put_state.
    replace (fst (dict_put into_cur k None acc s2)) with (sort_dict (ins_insert k None g)).
    - apply Fin, ins_insert_nodup, Hn.
    - rewrite <- sort_dict_ins_insert by exact Hn; rewrite <- Hd.
      destruct into_cur; reflexivity. }
  destruct (parseType f t2 s2) as [e|[x s3]] eqn:T; [reflexivity|].
  apply (proj1 (parse_values_frame f)) in T.
  rewrite <- (dict_cur_frame into_cur acc s2 s3 T) in Hd.
  rewrite (surjective_pairing (dict_put into_cur k (Some x) acc s3)), dict_put_state.
  apply IH; [apply ins_insert_nodup, Hn|].
  rewrite <- dict_put_state with (acc := acc), dict_put_cur, Hd.
  apply sort_dict_ins_insert, Hn.
Qed.

Lemma parsed_dictionary_sorted_str_witness :
  NoDup (map fst [("A", Some (Integer 0 false))])
  /\ dict_cur true [] (state_at ("/B 1/A 2>> endobj" ++ LF) 0
                         (set_odict emptyObject [("A", Some (Integer 0 false))]))
     = sort_dict [("A", Some (Integer 0 false))]
  /\ exists d st',
       parseDictionary 10 true [] (state_at ("/B 1/A 2>> endobj" ++ LF) 0
                                     (set_odict emptyObject [("A", Some (Integer 0 false))]))
       = inr (d, st')
       /\ d = [("A", Some (Integer 2 false)); ("B", Some (Integer 1 false))]
       /\ Sorted key_lt d.
Proof.
  assert (H1 : NoDup (map fst [("A", Some (Integer 0 false))]))
    by (simpl; constructor; [intros []|constructor]).
  assert (H2 : dict_cur true [] (state_at ("/B 1/A 2>> endobj" ++ LF) 0
                                   (set_odict emptyObject [("A", Some (Integer 0 false))]))
               = sort_dict [("A", Some (Integer 0 false))]) by (vm_compute; reflexivity).
  pose proof (parsed_dictionary_sorted_str (fun _ => "") 10 true [] [("A", Some (Integer 0 false))]
                _ H1 H2) as T.
  split; [exact H1|]; split; [exact H2|].
  assert (E : exists st', parseDictionary 10 true [] (state_at ("/B 1/A 2>> endobj" ++ LF) 0
                            (set_odict emptyObject [("A", Some (Integer 0 false))]))
                          = inr ([("A", Some (Integer 2 false)); ("B", Some (Integer 1 false))], st'))
    by (eexists; vm_compute; reflexivity).
  destruct E as [st' E].
  exists [("A", Some (Integer 2 false)); ("B", Some (Integer 1 false))], st'.
  split; [exact E|]; split; [reflexivity|].
  rewrite E in T.
  destruct (parseDictionary_ins 10 true [("A", Some (Integer 0 false))] _) as [e|[g' s']];
    [contradiction|].
  exact (proj1 (proj2 (proj2 (proj2 T)))).
Defined.

Lemma write_new_count : forall leaf l out xref nb co o x n c,
  write_new leaf l out xref nb co = (o, x, n, c) ->
  (nb <= n)%nat /\ (existsb isNew l = true -> (nb < n)%nat).
Proof.
  intros leaf; induction l as [|ob l IH]; intros out xref nb co o x n c H.
  - simpl in H; injection H as <- <- <- <-; split; [lia | discriminate].
  - simpl in H |- *.
    destruct (isNew ob); simpl in H.
    + apply IH in H; destruct H as [H _]; split; [lia | intros; lia].
    + apply IH in H; exact H.
Qed.

(** The loop of [writeUpdate] only appends, to the file and to the xref
    text. *)
Lemma write_new_app : forall leaf l out xref nb co out' xref' nb' co',
  write_new leaf l out xref nb co = (out', xref', nb', co') ->
  exists o x, out' = out ++ o /\ xref' = xref ++ x.
Proof.
  intros leaf; induction l as [|ob l IH]; intros out xref nb co out' xref' nb' co' H.
  - simpl in H; injection H as <- <- <- <-; exists "", ""; rewrite !str_app_nil_r; split; reflexivity.
  - simpl in H; destruct (isNew ob); simpl in H; apply IH in H; destruct H as (o & x & -> & ->).
    + eexists; eexists; rewrite !str_app_assoc; split; reflexivity.
    + exists o, x; split; reflexivity.
Qed.

(** C3 (as stated): [Prev] is not written as the last entry of the new
    trailer: the trailer is a sorted map, and [Root] and [Size] sort after
    [Prev]. *)
Lemma prev_not_last_counterexample :
  map fst (odict (trailer (snd (writeUpdate (fun _ => "") update_example_state ""))))
    = ["Prev"; "Root"; "Size"]
  /\ Dictionary_str (fun _ => "") (odict (trailer (snd (writeUpdate (fun _ => "") update_example_state ""))))
    = "<</Prev 1000/Root/Size 43>>" ++ LF.
Proof. split; vm_compute; reflexivity. Qed.

(** C3 (amended): when at least one Object is new, [writeUpdate] ends the
    file with [trailer], a line feed, the serialised trailer dictionary,
    then [startxref], the new xref offset and [%%EOF], where the new xref
    offset is the byte offset at which [xref] is written (after the old
    bytes, a carriage return and the new Objects); in that dictionary
    [Prev] holds the xref offset read at parse time (cast to a C++ [int]),
    and the dictionary is a sorted map, so [Prev] is written at its sorted
    place among the keys. *)
Theorem writeUpdate_trailer_prev : forall leaf st target out st',
  existsb isNew (objects st) = true ->
  Sorted key_lt (odict (trailer st)) ->
  writeUpdate leaf st target = (out, st') ->
  map_find "Prev" (odict (trailer st')) = Some (Some (Integer (wrap32 (xrefOffset st)) false))
  /\ Sorted key_lt (odict (trailer st'))
  /\ exists objs entries,
       out = target ++ String "013"%char EmptyString ++ objs ++ "xref" ++ LF ++ entries
             ++ "trailer" ++ LF ++ Dictionary_str leaf (odict (trailer st'))
             ++ "startxref" ++ LF
             ++ to_string (Z.of_nat (String.length (target ++ String "013"%char EmptyString ++ objs)))
             ++ LF ++ "%%EOF".
Proof.
  intros leaf st target out st' Hn Hs H; unfold writeUpdate in H.
  destruct (write_new leaf (objects st) (target ++ String "013"%char EmptyString)
              ("xref" ++ LF) 0 (curOffset st)) as [[[out1 xref] nb] co] eqn:W.
  pose proof (write_new_app _ _ _ _ _ _ _ _ _ _ W) as (objs & entries & E1 & E2).
  apply write_new_count in W; destruct W as [_ W]; specialize (W Hn).
  destruct nb as [|nb]; [lia|].
  cbn [Nat.eqb] in H; injection H as <- <-.
  cbn [trailer odict set_curOffset set_trailer set_odict].
  split; [apply map_find_insert|].
  split; [apply map_insert_sorted, map_delete_sorted, Hs|].
  exists objs, entries; subst out1 xref.
  unfold Dictionary_str; cbn [str]; rewrite !str_app_assoc; reflexivity.
Qed.

Lemma writeUpdate_trailer_prev_witness :
  existsb isNew (objects update_example_state) = true
  /\ Sorted key_lt (odict (trailer update_example_state))
  /\ map_find "Prev" (odict (trailer (snd (writeUpdate (fun _ => "") update_example_state ""))))
     = Some (Some (Integer (wrap32 (xrefOffset update_example_state)) false)).
Proof.
  assert (H1 : existsb isNew (objects update_example_state) = true) by (vm_compute; reflexivity).
  assert (H2 : Sorted key_lt (odict (trailer update_example_state))).
  { repeat constructor; vm_compute; reflexivity. }
  split; [exact H1|]. split; [exact H2|].
  destruct (writeUpdate (fun _ => "") update_example_state "") as [out st'] eqn:E.
  exact (proj1 (writeUpdate_trailer_prev (fun _ => "") update_example_state "" out st' H1 H2 E)).
Defined.

(** ** Claims on the Object list *)

(** Filling the dictionary of the Object under construction changes
    neither the Object list nor the Object's number and generation. *)
Lemma parseDictionary_cur_ids : forall fuel acc st d st',
  parseDictionary fuel true acc st = inr (d, st') ->
  objects st' = objects st /\ objectId (cur st') = objectId (cur st)
  /\ generationNumber (cur st') = generationNumber (cur st).
Proof.
  induction fuel as [|f IH]; intros acc st d st' H; simpl in H; [discriminate|].
  unfold bindr in H.
  destruct (nextToken_d st) as [e|[t s1]] eqn:N; [discriminate|].
  apply nextToken_frame in N; destruct N as (_ & N1 & _ & _ & _ & N2 & _).
  destruct (String.eqb t ">>").
  { injection H as _ <-; rewrite N1, N2; auto. }
  destruct (parseName t) as [e|key]; [discriminate|].
  destruct (nextToken_d s1) as [e|[t2 s2]] eqn:M; [discriminate|].
  apply nextToken_frame in M; destruct M as (_ & M1 & _ & _ & _ & M2 & _).
  destruct (String.eqb t2 ">>").
  { unfold dict_put in H; injection H as _ <-; cbn; rewrite M1, M2, N1, N2; auto. }
  destruct (parseType f t2 s2) as [e|[x s3]] eqn:T; [discriminate|].
  apply (proj1 (parse_values_frame f)) in T; destruct T as (_ & T1 & _ & _ & _ & T2 & _).
  unfold dict_put in H; apply IH in H; cbn in H.
  destruct H as (H1 & H2 & H3); rewrite H1, H2, H3, T1, T2, M1, M2, N1, N2; auto.
Qed.

(** The loop of [parseObject] only fills the Object under construction. *)
Lemma object_loop_cur_ids : forall fuel st st',
  object_loop fuel st = inr st' ->
  objects st' = objects st /\ objectId (cur st') = objectId (cur st)
  /\ generationNumber (cur st') = generationNumber (cur st).
Proof.
  induction fuel as [|f IH]; intros st st' H; simpl in H; [discriminate|].
  unfold bindr in H.
  destruct (nextToken_d st) as [e|[t s1]] eqn:N; [discriminate|].
  apply nextToken_frame in N; destruct N as (_ & N1 & _ & _ & _ & N2 & _).
  destruct (String.eqb t "endobj").
  { injection H as <-; rewrite N1, N2; auto. }
  destruct (String.eqb t "<<").
  { destruct (parseDictionary f true [] s1) as [e|[d s2]] eqn:D; [discriminate|].
    apply parseDictionary_cur_ids in D; apply IH in H.
    destruct H as (H1 & H2 & H3), D as (D1 & D2 & D3).
    rewrite H1, H2, H3, D1, D2, D3, N1, N2; auto. }
  destruct (is_digit19 (first_char t)).
  { destruct (tokenToNumber t "000") as [e|[v sg| | | | | | | | | |]]; try discriminate.
    apply IH in H; cbn in H; rewrite N1, N2 in H; exact H. }
  destruct (parseType f t s1) as [e|[x s2]] eqn:T; [discriminate|].
  apply (proj1 (parse_values_frame f)) in T; destruct T as (_ & T1 & _ & _ & _ & T2 & _).
  apply IH in H; cbn in H; rewrite T1, T2, N1, N2 in H; exact H.
Qed.

(** C5 (as stated): the Object list of a parsed document may hold two
    Objects with the same number and generation. *)
Lemma duplicate_objects_counterexample :
  exists st, parse duplicate_example = inr st
  /\ map (fun o => (objectId o, generationNumber o)) (objects st) = [(1, 0); (1, 0)].
Proof. eexists; split; [vm_compute; reflexivity | vm_compute; reflexivity]. Qed.

(** C5 (amended): [parseObject] appends exactly one Object to the Object
    list, numbered by its token and the following one, without comparing
    that pair with the Objects already there. *)
Theorem parseObject_appends : forall fuel tok st st',
  parseObject fuel tok st = inr st' ->
  exists o tok1 st1,
    objects st' = (objects st ++ [o])%list
    /\ stoi tok = inr (objectId o)
    /\ nextToken_d st = inr (tok1, st1)
    /\ stoi tok1 = inr (generationNumber o).
Proof.
  intros fuel tok st st' H; unfold parseObject, bindr in H.
  destruct (stoi tok) as [e|id] eqn:I; [destruct e; discriminate|]; cbn [catch_invalid] in H.
  destruct (nextToken_d st) as [e|[t1 s1]] eqn:N; [discriminate|].
  destruct (stoi t1) as [e|gen] eqn:G; [destruct e; discriminate|]; cbn [catch_invalid] in H.
  destruct (nextToken_d s1) as [e|[t2 s2]] eqn:M; [discriminate|].
  destruct (negb (String.eqb t2 "obj")); [discriminate|].
  destruct (object_loop fuel (set_cur s2 (newParsedObject id gen (curOffset st)))) as [e|s3] eqn:L;
    [discriminate|].
  injection H as <-.
  apply object_loop_cur_ids in L; cbn in L; destruct L as (L1 & L2 & L3).
  apply nextToken_frame in N; destruct N as (_ & N1 & _).
  apply nextToken_frame in M; destruct M as (_ & M1 & _).
  exists (cur s3), t1, s1; cbn [objects set_objects].
  rewrite L1, M1, N1, L2, L3; auto.
Qed.

Lemma parseObject_appends_witness :
  exists st', parseObject 20 "1" (state_at duplicate_example 10 emptyObject) = inr st'
  /\ exists o tok1 st1,
       objects st' = (objects (state_at duplicate_example 10 emptyObject) ++ [o])%list
       /\ stoi "1" = inr (objectId o)
       /\ nextToken_d (state_at duplicate_example 10 emptyObject) = inr (tok1, st1)
       /\ stoi tok1 = inr (generationNumber o).
Proof.
  assert (E : exists st', parseObject 20 "1" (state_at duplicate_example 10 emptyObject) = inr st')
    by (eexists; vm_compute; reflexivity).
  destruct E as [st' E]; exists st'; split; [exact E|].
  exact (parseObject_appends 20 "1" _ st' E).
Defined.

(** ** Claims on the lookahead of references *)

(** Seeking back to the saved cursor after a lookahead that only moved the
    cursor and [curOffset] restores everything but [curOffset]. *)
Lemma seek_back_after_frame : forall st s,
  frame st s -> seek_set s (tell st) = set_curOffset st (curOffset s).
Proof.
  intros st s H; unfold seek_set, tell.
  replace (Z.of_nat (pos st) <? 0) with false by (symmetry; apply Z.ltb_ge; lia).
  rewrite Nat2Z.id.
  pose proof (frame_eq st s H) as E.
  set (o := curOffset s) in *; rewrite E; destruct st; reflexivity.
Qed.

(** C2 (as stated): the rollback is not transactional: after [1 2 X] the
    cursor is restored but [curOffset] stays at the start of [X]; and a
    lookahead reaching end of file raises TruncatedFile instead of giving
    the Integer back. *)
Lemma lookahead_rollback_counterexample :
  parseNumberOrReference "1" lookahead_example_state
    = inr (Integer 1 false, set_curOffset lookahead_example_state 4)
  /\ curOffset lookahead_example_state = 0
  /\ parseNumberOrReference "1" (state_at "1 ]" 1 emptyObject) = inl TRUNCATED_FILE.
Proof. vm_compute; repeat split; reflexivity. Qed.

(** C2 (amended): a token converting to a Real is returned as is, the
    cursor untouched. For an Integer, two tokens are read with
    [nextToken()] (end of file raising TruncatedFile, which propagates like
    any error of the lookahead). If the second converts with [std::stoi] to
    an Integer and the third is [R], the result is the Reference, the
    cursor after [R]. If the second does not convert (invalid_argument), is
    a Real, or the third is not [R], the cursor goes back to where it was
    after the first token and the Integer is returned: the only state left
    changed is [curOffset], which stays at the start of the third token.
    An out_of_range from the second token propagates. *)
Theorem parseNumberOrReference_lookahead : forall tok st v,
  tokenToNumber tok "000" = inr v ->
  match v with
  | Integer n sg =>
      (forall e, nextToken_d st = inl e -> parseNumberOrReference tok st = inl e)
      /\ (forall t2 s2 e, nextToken_d st = inr (t2, s2) -> nextToken_d s2 = inl e ->
            parseNumberOrReference tok st = inl e)
      /\ (forall t2 s2 t3 s3, nextToken_d st = inr (t2, s2) -> nextToken_d s2 = inr (t3, s3) ->
            parseNumberOrReference tok st =
              match tokenToNumber t2 "000" with
              | inr (Integer g _) =>
                  if String.eqb t3 "R" then inr (Reference n g, s3)
                  else inr (Integer n sg, set_curOffset st (curOffset s3))
              | inl StdInvalidArgument | inr _ => inr (Integer n sg, set_curOffset st (curOffset s3))
              | inl e => inl e
              end)
  | _ => parseNumberOrReference tok st = inr (v, st)
  end.
Proof.
  intros tok st v Hv; unfold parseNumberOrReference; rewrite Hv; cbn [bindr].
  destruct v as [n sg| | | | | | | | | |]; try reflexivity.
  split; [intros e N; rewrite N; reflexivity|].
  split; [intros t2 s2 e N M; rewrite N; cbn [bindr]; rewrite M; reflexivity|].
  intros t2 s2 t3 s3 N M; rewrite N; cbn [bindr]; rewrite M; cbn [bindr].
  apply nextToken_frame in N; apply nextToken_frame in M.
  rewrite (seek_back_after_frame st s3 (frame_trans _ _ _ N M)).
  destruct (tokenToNumber t2 "000") as [[]|[]]; reflexivity.
Qed.

Lemma parseNumberOrReference_lookahead_witness :
  tokenToNumber "1" "000" = inr (Integer 1 false)
  /\ parseNumberOrReference "1" lookahead_example_state
     = inr (Integer 1 false, set_curOffset lookahead_example_state 4).
Proof.
  assert (H : tokenToNumber "1" "000" = inr (Integer 1 false)) by (vm_compute; reflexivity).
  split; [exact H|].
  pose proof (parseNumberOrReference_lookahead "1" lookahead_example_state _ H) as T.
  cbv beta iota in T; destruct T as (_ & _ & T).
  rewrite (T "2" (set_curOffset (set_pos lookahead_example_state 3) 2)
             "X" (set_curOffset (set_pos lookahead_example_state 6) 4))
    by (vm_compute; reflexivity).
  vm_compute; reflexivity.
Defined.

(** ** The scanner: where a token starts *)

Lemma substring_snoc : forall s n m c,
  String.get (n + m) s = Some c ->
  String.substring n (S m) s = snoc (String.substring n m s) c.
Proof.
  unfold snoc; induction s as [|a t IH]; intros n m c H; [destruct n, m; discriminate|].
  destruct n as [|n].
  - destruct m as [|m]; simpl in H |- *.
    + injection H as <-; rewrite substring_zero; reflexivity.
    + f_equal; apply (IH 0%nat m c); exact H.
  - simpl in H |- *; apply IH; exact H.
Qed.

Lemma str_length_snoc : forall s c, String.length (snoc s c) = S (String.length s).
Proof. unfold snoc; induction s as [|a t IH]; intros c; simpl; [reflexivity|]; rewrite IH; reflexivity. Qed.

Lemma finishLine_loop_curOffset : forall fuel st,
  curOffset (finishLine_loop fuel st) = curOffset st.
Proof.
  induction fuel as [|f IH]; intros st; simpl; [reflexivity|].
  unfold read; destruct (String.get (pos st) (file st)); [|reflexivity].
  destruct (is_newline a); [reflexivity|]; rewrite IH; reflexivity.
Qed.

Lemma finishLine_curOffset : forall st, curOffset (finishLine st) = curOffset st.
Proof.
  intros st; unfold finishLine.
  pose proof (finishLine_loop_curOffset (S (remaining st)) st) as H.
  unfold read; destruct (String.get _ _); [|exact H].
  destruct (is_newline a); simpl; exact H.
Qed.

Lemma start_delim_first : forall res,
  in_chars (first_char res) start_delims = false -> res <> "<" /\ res <> ">".
Proof. intros res H; split; intros ->; discriminate H. Qed.

(** A token that is still growing keeps its bytes when the loop stops. *)
Lemma nt_tok_inv_out : forall eof res st st',
  res <> "" -> nt_tok_inv res st ->
  file st' = file st -> curOffset st' = curOffset st -> nt_tok_out eof res st'.
Proof.
  intros eof res st st' Hne H Hf Hc.
  destruct (H Hne) as (H0 & _ & H2 & H3).
  split; [intros _; exact Hne|]; intros _.
  rewrite Hf, Hc; split; [exact H0|]; split; [exact H2|].
  destruct (start_delim_first _ H3); intros [-> | ->]; congruence.
Qed.

Lemma nt_body_tok : forall eof c res st,
  nt_tok_inv res st ->
  match nt_body eof false c res st with
  | NtCont _ res' st' => nt_tok_inv res' st'
  | NtBreak res' st' => nt_tok_out eof res' st'
  | NtErr _ => True
  end.
Proof.
  intros eof c res st H; unfold nt_body.
  destruct (read st) as [[c0 st1]|] eqn:E.
  2:{ destruct eof; [exact I|].
      destruct res as [|r0 rr].
      - split; [discriminate | intros []; reflexivity].
      - apply (nt_tok_inv_out false _ st st); [discriminate | exact H | reflexivity..]. }
  unfold read in E; destruct (String.get (pos st) (file st)) as [c1|] eqn:G; [|discriminate].
  injection E as <- <-.
  destruct res as [|r0 rr].
  - (* no byte accumulated yet *)
    assert (Hnil : forall s, nt_tok_inv "" s) by (intros s []; reflexivity).
    destruct (c1 =? "%")%char; [apply Hnil|].
    cbn [is_empty andb negb]; rewrite andb_true_r.
    destruct (is_white c1) eqn:W; [apply Hnil|].
    destruct (is_newline c1); [apply Hnil|].
    assert (Hs : String.substring (pos st) 1 (file st) = String c1 EmptyString).
    { rewrite (substring_snoc (file st) (pos st) 0 c1) by (rewrite Nat.add_0_r; exact G).
      rewrite substring_zero; reflexivity. }
    unfold tell.
    destruct (in_cstr c1 start_delims) eqn:D; unfold nt_tok_out, nt_tok_inv;
      cbn [set_curOffset set_pos curOffset pos file String.length snoc append first_char].
    all: replace (Z.of_nat (S (pos st)) - 1) with (Z.of_nat (pos st)) by lia; rewrite Nat2Z.id.
    + split; [intros _; discriminate|]; intros _.
      split; [lia|]; split; [exact Hs|]; intros _; reflexivity.
    + intros _; split; [lia|]; split; [lia|]; split; [exact Hs|].
      unfold in_cstr in D; apply orb_false_iff in D; apply D.
  - (* a token is growing *)
    assert (Hne : String r0 rr <> "") by discriminate.
    destruct (c1 =? "%")%char.
    { cbn [is_empty].
      apply (nt_tok_inv_out eof _ st); [exact Hne | exact H | |].
      - pose proof (finishLine_frame (set_pos st (S (pos st)))) as F; apply F.
      - rewrite finishLine_curOffset; reflexivity. }
    cbn [is_empty andb negb]; rewrite andb_false_r.
    destruct (is_newline c1).
    { apply (nt_tok_inv_out eof _ st); [exact Hne | exact H | reflexivity..]. }
    destruct (in_cstr c1 delims).
    { apply (nt_tok_inv_out eof _ st); [exact Hne | exact H | reflexivity..]. }
    destruct ((c =? " ")%char && in_cstr c1 whitespace_prev_delims).
    { apply (nt_tok_inv_out eof _ st); [exact Hne | exact H | reflexivity..]. }
    destruct (H Hne) as (H0 & H1 & H2 & H3).
    unfold nt_tok_inv; intros _; cbn [set_pos pos curOffset file].
    split; [exact H0|].
    rewrite str_length_snoc.
    split; [rewrite H1; lia|].
    split.
    + rewrite (substring_snoc (file st) (Z.to_nat (curOffset st)) (String.length (String r0 rr)) c1)
        by (rewrite <- H1; exact G).
      rewrite H2; reflexivity.
    + exact H3.
Qed.

Lemma nt_loop_tok : forall fuel eof c res st r st',
  nt_tok_inv res st -> nt_loop fuel eof false c res st = inr (r, st') -> nt_tok_out eof r st'.
Proof.
  induction fuel as [|f IH]; intros eof c res st r st' H L; simpl in L; [discriminate|].
  pose proof (nt_body_tok eof c res st H) as B.
  destruct (nt_body eof false c res st) as [c' res' s'|res' s'|e]; [| |discriminate].
  - exact (IH eof c' res' s' r st' B L).
  - injection L as <- <-; exact B.
Qed.

Lemma nt_digraph_tok : forall res st,
  nt_tok_out true res st ->
  fst (nt_digraph res st) <> ""
  /\ 0 <= curOffset (snd (nt_digraph res st))
  /\ String.substring (Z.to_nat (curOffset (snd (nt_digraph res st))))
       (String.length (fst (nt_digraph res st))) (file (snd (nt_digraph res st)))
     = fst (nt_digraph res st).
Proof.
  intros res st [He Hr]; specialize (He eq_refl).
  destruct (Hr He) as (H0 & H1 & H2).
  unfold nt_digraph.
  destruct (String.eqb res ">" || String.eqb res "<") eqn:D; [|cbn [fst snd]; auto].
  assert (Hres : res = ">" \/ res = "<").
  { apply orb_true_iff in D; destruct D as [D|D]; apply String.eqb_eq in D; auto. }
  specialize (H2 (proj1 (or_comm _ _) Hres)).
  unfold read; destruct (String.get (pos st) (file st)) as [c|] eqn:G; [|cbn [fst snd]; auto].
  destruct (c =? first_char res)%char; cbn [fst snd set_pos seek_back1 curOffset file pos].
  - split; [unfold snoc; destruct res; discriminate|]; split; [exact H0|].
    rewrite str_length_snoc.
    assert (Hl : String.length res = 1%nat) by (destruct Hres as [-> | ->]; reflexivity).
    rewrite (substring_snoc (file st) (Z.to_nat (curOffset st)) (String.length res) c)
      by (rewrite Hl, Nat.add_1_r, <- H2; exact G).
    rewrite H1; reflexivity.
  - auto.
Qed.

(** Every token of [nextToken()] is non-empty and [curOffset] is left on
    its first byte: the file holds the token there. *)
Lemma nextToken_d_start : forall st tok st',
  nextToken_d st = inr (tok, st') ->
  tok <> "" /\ 0 <= curOffset st'
  /\ String.substring (Z.to_nat (curOffset st')) (String.length tok) (file st') = tok.
Proof.
  intros st tok st' H; unfold nextToken_d, nextToken in H.
  destruct (nt_loop _ true false _ _ st) as [e|[r s]] eqn:L; [discriminate|].
  injection H as H.
  apply nt_loop_tok in L; [|intros []; reflexivity].
  pose proof (nt_digraph_tok r s L) as D; rewrite H in D; exact D.
Qed.

(** ** Claims on the trailer *)

(** C7: when the token after a trailer dictionary is not [startxref],
    [parseTrailer] raises nothing: it returns false with the cursor moved
    back onto the first byte of that token (the file holds the token from
    there), the trailer dictionary having been read. *)
Theorem parseTrailer_without_startxref : forall fuel st s1 d s2 tok s4,
  nextToken_d st = inr ("<<", s1) ->
  parseDictionary fuel true [] (set_cur s1 (trailer s1)) = inr (d, s2) ->
  nextToken_d (set_trailer s2 (cur s2)) = inr (tok, s4) ->
  tok <> "startxref" ->
  parseTrailer fuel st = inr (false, set_pos s4 (Z.to_nat (curOffset s4)))
  /\ tok <> ""
  /\ String.substring (Z.to_nat (curOffset s4)) (String.length tok) (file s4) = tok.
Proof.
  intros fuel st s1 d s2 tok s4 H1 H2 H3 H4.
  destruct (nextToken_d_start _ _ _ H3) as (Ht & H0 & Hs).
  split; [|split; assumption].
  unfold parseTrailer; rewrite H1; cbn [bindr].
  rewrite String.eqb_refl; cbn [negb].
  rewrite H2; cbn [bindr]; rewrite H3; cbn [bindr].
  apply String.eqb_neq in H4; rewrite H4; cbn [negb].
  unfold seek_set.
  replace (curOffset s4 <? 0) with false by (symmetry; apply Z.ltb_ge; lia).
  reflexivity.
Qed.

Lemma parseTrailer_without_startxref_witness :
  exists s1 d s2 tok s4,
    nextToken_d (state_at trailer_example 0 emptyObject) = inr ("<<", s1)
    /\ parseDictionary 20 true [] (set_cur s1 (trailer s1)) = inr (d, s2)
    /\ nextToken_d (set_trailer s2 (cur s2)) = inr (tok, s4)
    /\ tok <> "startxref"
    /\ parseTrailer 20 (state_at trailer_example 0 emptyObject)
       = inr (false, set_pos s4 (Z.to_nat (curOffset s4)))
    /\ tok = "2" /\ curOffset s4 = 12.
Proof.
  pose (s1 := match nextToken_d (state_at trailer_example 0 emptyObject) with
              | inr (_, s) => s | inl _ => initial_state "" end).
  pose (r2 := parseDictionary 20 true [] (set_cur s1 (trailer s1))).
  pose (d := match r2 with inr (x, _) => x | inl _ => [] end).
  pose (s2 := match r2 with inr (_, s) => s | inl _ => initial_state "" end).
  pose (r4 := nextToken_d (set_trailer s2 (cur s2))).
  pose (tok := match r4 with inr (t, _) => t | inl _ => "" end).
  pose (s4 := match r4 with inr (_, s) => s | inl _ => initial_state "" end).
  assert (H1 : nextToken_d (state_at trailer_example 0 emptyObject) = inr ("<<", s1))
    by (vm_compute; reflexivity).
  assert (H2 : parseDictionary 20 true [] (set_cur s1 (trailer s1)) = inr (d, s2))
    by (vm_compute; reflexivity).
  assert (H3 : nextToken_d (set_trailer s2 (cur s2)) = inr (tok, s4))
    by (vm_compute; reflexivity).
  assert (H4 : tok <> "startxref") by (vm_compute; discriminate).
  exists s1, d, s2, tok, s4.
  split; [exact H1|]; split; [exact H2|]; split; [exact H3|]; split; [exact H4|].
  split; [exact (proj1 (parseTrailer_without_startxref 20 _ s1 d s2 tok s4 H1 H2 H3 H4))|].
  split; vm_compute; reflexivity.
Defined.

(** ** Claims on the scanner's signs *)

(** Bytes neither ending a growing token nor a line end are not
    whitespace. *)
Lemma not_white_in_token : forall c,
  in_cstr c delims = false -> is_newline c = false -> is_white c = false.
Proof.
  intros c; destruct c as [[] [] [] [] [] [] [] []]; vm_compute; congruence.
Qed.

(** A continuing iteration that leaves a non-empty token has just read a
    byte that is not whitespace, the last one before the cursor. *)
Lemma nt_body_cont_last : forall eof rc c res st c' res' st',
  nt_body eof rc c res st = NtCont c' res' st' -> res' <> "" ->
  exists p, pos st' = S p /\ String.get p (file st') = Some c' /\ is_white c' = false.
Proof.
  intros eof rc c res st c' res' st' H Hne; unfold nt_body in H.
  destruct (read st) as [[c0 st1]|] eqn:E; [|destruct eof; discriminate].
  unfold read in E; destruct (String.get (pos st) (file st)) as [c1|] eqn:G; [|discriminate].
  injection E as <- <-.
  destruct (c1 =? "%")%char.
  { destruct rc.
    - destruct (comment_loop _ _ _ _) as [|[]]; discriminate.
    - destruct (is_empty res) eqn:Em; [|discriminate].
      injection H as _ <- _; destruct res; [congruence | discriminate]. }
  destruct (is_white c1 && is_empty res) eqn:W.
  { injection H as _ <- _; apply andb_prop in W; destruct W as [_ W].
    destruct res; [congruence | discriminate]. }
  destruct (is_newline c1) eqn:N.
  { destruct (is_empty res) eqn:Em; [|discriminate].
    injection H as _ <- _; destruct res; [congruence | discriminate]. }
  destruct (is_empty res) eqn:Em; cbn [negb] in H.
  - destruct (in_cstr c1 start_delims); [discriminate|].
    injection H as <- _ <-; exists (pos st); cbn; split; [reflexivity|]; split; [exact G|].
    rewrite andb_true_r in W; exact W.
  - destruct (in_cstr c1 delims) eqn:D; [discriminate|].
    destruct ((c =? " ")%char && in_cstr c1 whitespace_prev_delims); [discriminate|].
    injection H as <- _ <-; exists (pos st); cbn; split; [reflexivity|]; split; [exact G|].
    apply not_white_in_token; assumption.
Qed.

(** C8: while a token is being accumulated, the byte read before the
    next one is the last byte of the token, which is never whitespace;
    a following [+] or [-] ends the token if and only if that byte is
    whitespace (space, tab, line feed, carriage return or NUL), i.e. never:
    it is appended to the token. *)
Theorem nextToken_sign_in_token : forall eof rc st0 c res st b st1,
  nt_reach eof rc st0 c res st -> res <> "" ->
  read st = Some (b, st1) -> (b = "+"%char \/ b = "-"%char) ->
  (exists p, pos st = S p /\ String.get p (file st) = Some c)
  /\ ((exists r s, nt_body eof rc c res st = NtBreak r s) <-> is_white c = true)
  /\ nt_body eof rc c res st = NtCont b (snoc res b) st1.
Proof.
  intros eof rc st0 c res st b st1 R Hne Hr Hb.
  assert (L : exists p, pos st = S p /\ String.get p (file st) = Some c /\ is_white c = false).
  { inversion R as [|c2 res2 st2 c3 res3 st3 _ B]; [congruence|].
    subst; exact (nt_body_cont_last _ _ _ _ _ _ _ _ B Hne). }
  destruct L as (p & Hp & Hg & Hw).
  assert (Hsp : (c =? " ")%char = false).
  { unfold is_white in Hw; apply orb_false_iff in Hw as [Hw _].
    apply orb_false_iff in Hw as [Hw _]; apply orb_false_iff in Hw as [Hw _].
    apply orb_false_iff in Hw as [Hw _]; exact Hw. }
  assert (Hc : nt_body eof rc c res st = NtCont b (snoc res b) st1).
  { unfold nt_body; rewrite Hr.
    destruct res as [|r0 rr]; [congruence|].
    cbn [is_empty negb]; rewrite Hsp; cbn [andb].
    destruct Hb as [-> | ->]; reflexivity. }
  split; [exists p; split; assumption|].
  split; [|exact Hc].
  rewrite Hc, Hw; split; [intros (r & s & E); discriminate | discriminate].
Qed.

Lemma nextToken_sign_in_token_witness :
  nt_reach true false sign_example "1"%char "1" sign_example_mid
  /\ read sign_example_mid = Some ("-"%char, set_pos sign_example_mid 3)
  /\ nt_body true false "1"%char "1" sign_example_mid
     = NtCont "-"%char (snoc "1" "-"%char) (set_pos sign_example_mid 3).
Proof.
  assert (R : nt_reach true false sign_example "1"%char "1" sign_example_mid).
  { apply (nt_reach_step true false sign_example " "%char "" (set_pos sign_example 1)).
    - apply (nt_reach_step true false sign_example "000"%char "" sign_example).
      + apply nt_reach_init.
      + vm_compute; reflexivity.
    - vm_compute; reflexivity. }
  assert (Hr : read sign_example_mid = Some ("-"%char, set_pos sign_example_mid 3))
    by (vm_compute; reflexivity).
  split; [exact R|]; split; [exact Hr|].
  exact (proj2 (proj2 (nextToken_sign_in_token true false sign_example "1"%char "1"
                         sign_example_mid "-"%char (set_pos sign_example_mid 3)
                         R ltac:(discriminate) Hr (or_intror eq_refl)))).
Defined.

(** ** Dictionaries and the object table *)

(** X1: [Dictionary::addData(key, value)] ([_value[key] = value]) then a
    lookup: the looked-up key gets [value] if it is [key], and what it had
    before otherwise. *)
Theorem addData_lookup : forall k k' v m,
  map_find k' (map_insert k v m) = if String.eqb k' k then Some v else map_find k' m.
Proof. exact map_find_insert_cases. Qed.

Lemma map_find_delete_other : forall k k' m,
  k' <> k -> map_find k' (map_delete k m) = map_find k' m.
Proof.
  intros k k' m Hne; induction m as [|[k0 v0] t IH]; simpl; [reflexivity|].
  destruct (String.eqb k k0) eqn:E; simpl.
  - apply String.eqb_eq in E; subst.
    apply String.eqb_neq in Hne; rewrite Hne; reflexivity.
  - rewrite IH; reflexivity.
Qed.

Lemma map_find_delete_same : forall k m,
  Sorted key_lt m -> map_find k (map_delete k m) = None.
Proof.
  intros k m H; induction m as [|[k0 v0] t IH]; simpl; [reflexivity|].
  destruct (String.eqb k k0) eqn:E.
  - apply String.eqb_eq in E; subst; eapply map_find_none_hd; [exact H | reflexivity].
  - simpl; rewrite E; apply IH; inversion H; assumption.
Qed.

Lemma getObject_mark_used : forall id gen b id' gen' l,
  getObject id' gen' (mark_used id gen b l)
  = if (id' =? id) && (gen' =? gen)
    then option_map (fun o => set_used o b) (getObject id gen l)
    else getObject id' gen' l.
Proof.
  intros id gen b id' gen' l.
  destruct ((id' =? id) && (gen' =? gen)) eqn:K.
  - apply andb_prop in K as [K1 K2]; apply Z.eqb_eq in K1, K2; subst.
    induction l as [|o t IH]; simpl; [reflexivity|].
    destruct ((objectId o =? id) && (generationNumber o =? gen)) eqn:M; simpl.
    + unfold set_used at 1; simpl; rewrite M; reflexivity.
    + rewrite M; exact IH.
  - induction l as [|o t IH]; simpl; [reflexivity|].
    destruct ((objectId o =? id) && (generationNumber o =? gen)) eqn:M; simpl.
    + unfold set_used; simpl.
      apply andb_prop in M as [M1 M2]; apply Z.eqb_eq in M1, M2.
      replace ((objectId o =? id') && (generationNumber o =? gen')) with false; [reflexivity|].
      rewrite M1, M2, Z.eqb_sym, (Z.eqb_sym gen gen'); symmetry; exact K.
    + destruct ((objectId o =? id') && (generationNumber o =? gen')); [reflexivity | exact IH].
Qed.

(** X2: the xref synchronisation of [Parser::parse] then [getObject(id,
    gen)]: the Object found is the one found before, its [used] flag set
    by the last xref entry for [(id, gen)] if there is one. *)
Theorem getObject_sync_xref : forall id gen xs l,
  getObject id gen (sync_xref xs l)
  = option_map (fun o => match find (xref_matches id gen) (rev xs) with
                         | Some x => set_used o (xr_used x)
                         | None => o
                         end) (getObject id gen l).
Proof.
  intros id gen xs l; induction xs as [|x xs IH] using rev_ind.
  - simpl; destruct (getObject id gen l); reflexivity.
  - unfold sync_xref in *; rewrite fold_left_app; simpl fold_left.
    rewrite getObject_mark_used, rev_app_distr; simpl find.
    destruct (xref_matches id gen x) eqn:K; unfold xref_matches in K.
    + apply andb_prop in K as [K1 K2]; apply Z.eqb_eq in K1, K2; subst id gen.
      rewrite !Z.eqb_refl; simpl; rewrite IH.
      destruct (getObject _ _ l) as [o|]; simpl; [|reflexivity].
      destruct (find _ (rev xs)); reflexivity.
    + rewrite Z.eqb_sym, (Z.eqb_sym gen), K; exact IH.
Qed.

(** X3: the xref synchronisation changes nothing but [used] flags: the
    Objects keep their order, count and every other field. *)
Theorem sync_xref_only_used : forall xs l,
  map (fun o => set_used o false) (sync_xref xs l) = map (fun o => set_used o false) l.
Proof.
  unfold sync_xref; induction xs as [|x xs IH]; intros l; simpl; [reflexivity|].
  rewrite IH. clear IH; induction l as [|o t IH]; simpl; [reflexivity|].
  destruct (_ && _); simpl; [reflexivity|]; rewrite IH; reflexivity.
Qed.

(** ** The bytes of a token *)

Lemma str_forallb_snoc : forall p s c,
  str_forallb p (snoc s c) = str_forallb p s && p c.
Proof.
  intros p s c; unfold snoc; induction s as [|d s IH]; simpl; [rewrite andb_true_r; reflexivity|].
  rewrite IH, andb_assoc; reflexivity.
Qed.

Lemma first_char_snoc : forall s c, s <> "" -> first_char (snoc s c) = first_char s.
Proof. intros [|d s] c H; [congruence | reflexivity]. Qed.

Lemma tok_bytes_inv_out : forall res, tok_bytes_inv res -> tok_bytes_out res.
Proof.
  intros res [H1 [H2|H2]]; split; try exact H1; intros H3; subst; [discriminate|].
  rewrite H2 in H3; discriminate.
Qed.

Lemma nt_body_tok_bytes : forall eof c res st,
  tok_bytes_inv res ->
  match nt_body eof false c res st with
  | NtCont _ res' _ => tok_bytes_inv res'
  | NtBreak res' _ => tok_bytes_out res'
  | NtErr _ => True
  end.
Proof.
  intros eof c res st H; unfold nt_body.
  destruct (read st) as [[c1 st1]|] eqn:E.
  2:{ destruct eof; [exact I | apply tok_bytes_inv_out; exact H]. }
  destruct (c1 =? "%")%char eqn:P.
  { destruct (is_empty res); [exact H | apply tok_bytes_inv_out; exact H]. }
  destruct (is_white c1 && is_empty res) eqn:W; [exact H|].
  destruct (is_newline c1) eqn:NL.
  { destruct (is_empty res); [exact H | apply tok_bytes_inv_out; exact H]. }
  destruct res as [|r0 rr].
  - cbn [is_empty negb] in *; rewrite andb_true_r in W.
    assert (Hb : token_byte c1 = true) by (unfold token_byte; rewrite W, P; reflexivity).
    destruct (in_cstr c1 start_delims) eqn:D.
    + split; [simpl; rewrite Hb; reflexivity | reflexivity].
    + split; [simpl; rewrite Hb; reflexivity|].
      right; simpl; unfold in_cstr in D; apply orb_false_iff in D; apply D.
  - cbn [is_empty negb].
    destruct (in_cstr c1 delims) eqn:D; [apply tok_bytes_inv_out; exact H|].
    destruct ((c =? " ")%char && in_cstr c1 whitespace_prev_delims);
      [apply tok_bytes_inv_out; exact H|].
    assert (Hb : token_byte c1 = true).
    { unfold token_byte; rewrite P, andb_true_r.
      revert D NL; unfold in_cstr, delims, is_white, is_newline.
      destruct c1 as [[] [] [] [] [] [] [] []]; vm_compute; congruence. }
    destruct H as [H1 H2].
    split; [rewrite str_forallb_snoc, H1, Hb; reflexivity|].
    right; rewrite first_char_snoc by discriminate.
    destruct H2 as [H2|H2]; [discriminate | exact H2].
Qed.

Lemma nt_loop_tok_bytes : forall fuel eof c res st r st',
  tok_bytes_inv res -> nt_loop fuel eof false c res st = inr (r, st') -> tok_bytes_out r.
Proof.
  induction fuel as [|f IH]; intros eof c res st r st' H L; simpl in L; [discriminate|].
  pose proof (nt_body_tok_bytes eof c res st H) as B.
  destruct (nt_body eof false c res st) as [c' res' s'|res' s'|e]; [| |discriminate].
  - exact (IH eof c' res' s' r st' B L).
  - inversion L; subst; exact B.
Qed.

(** X4: a token that [nextToken] returns without reading comments holds no
    white space byte (NUL included) and no [%]; one that starts with one of
    [< > [ ] ( )] is that byte alone, or [<<] or [>>]. *)
Theorem nextToken_token_bytes : forall eof st tok st',
  nextToken eof false st = inr (tok, st') ->
  str_forallb token_byte tok = true
  /\ (in_chars (first_char tok) start_delims = true -> In tok delim_tokens).
Proof.
  intros eof st tok st' H; unfold nextToken in H.
  destruct (nt_loop _ _ _ _ _ _) as [e|[r st1]] eqn:L; [discriminate|].
  injection H as H.
  assert (I0 : tok_bytes_inv "") by (split; [reflexivity | left; reflexivity]).
  destruct (nt_loop_tok_bytes _ _ _ _ _ _ _ I0 L) as [O1 O2].
  unfold nt_digraph in H.
  destruct (String.eqb r ">" || String.eqb r "<") eqn:G.
  - apply orb_true_iff in G; destruct G as [G|G]; apply String.eqb_eq in G; subst r.
    all: destruct (read st1) as [[c st2]|];
      [destruct (c =? first_char _)%char eqn:C|]; inversion H; subst tok.
    all: try (apply Ascii.eqb_eq in C; cbn [first_char] in C; subst c).
    all: split; [reflexivity | intros _; cbn; tauto].
  - inversion H; subst tok; split; [exact O1|].
    intros D; specialize (O2 D).
    revert D; rewrite O2; cbn [first_char].
    destruct (first_char r) as [[] [] [] [] [] [] [] []]; vm_compute;
      first [discriminate | tauto].
Qed.

(** ** Numbers written and read back *)

Lemma fold_digits_shift : forall l a,
  fold_left (fun acc c => acc * 10 + digit_val c) l a
  = a * 10 ^ Z.of_nat (length l) + fold_left (fun acc c => acc * 10 + digit_val c) l 0.
Proof.
  induction l as [|c l IH]; intros a; cbn [fold_left length]; [lia|].
  rewrite (IH (a * 10 + digit_val c)), (IH (0 * 10 + digit_val c)).
  rewrite Nat2Z.inj_succ, Z.pow_succ_r by lia. lia.
Qed.

Lemma length_list_ascii : forall s, length (list_ascii_of_string s) = String.length s.
Proof. induction s as [|c s IH]; simpl; [reflexivity | rewrite IH; reflexivity]. Qed.

Lemma decimal_value_cons : forall c s,
  decimal_value (String c s) = digit_val c * 10 ^ Z.of_nat (String.length s) + decimal_value s.
Proof.
  intros c s; unfold decimal_value; simpl.
  rewrite fold_digits_shift, length_list_ascii; lia.
Qed.

Lemma digit_char : forall k, 0 <= k < 10 ->
  is_digit (ascii_of_nat (48 + Z.to_nat k)) = true
  /\ digit_val (ascii_of_nat (48 + Z.to_nat k)) = k.
Proof.
  intros k Hk; unfold is_digit, digit_val.
  rewrite Ascii.nat_ascii_embedding by lia.
  split; [apply andb_true_iff; split; apply Nat.leb_le; lia | lia].
Qed.

Lemma dec_digits_S : forall f n acc,
  dec_digits (S f) n acc
  = if n / 10 =? 0 then String (ascii_of_nat (48 + Z.to_nat (n mod 10))) acc
    else dec_digits f (n / 10) (String (ascii_of_nat (48 + Z.to_nat (n mod 10))) acc).
Proof. reflexivity. Qed.

Lemma dec_digits_spec : forall f n acc,
  0 <= n < 10 ^ Z.of_nat (S f) -> all_digits acc = true ->
  all_digits (dec_digits (S f) n acc) = true /\ dec_digits (S f) n acc <> ""
  /\ decimal_value (dec_digits (S f) n acc)
     = n * 10 ^ Z.of_nat (String.length acc) + decimal_value acc.
Proof.
  induction f as [|f IH]; intros n acc Hn Ha;
    rewrite dec_digits_S;
    destruct (digit_char (n mod 10) ltac:(apply Z.mod_pos_bound; lia)) as [D1 D2];
    set (c := ascii_of_nat (48 + Z.to_nat (n mod 10))) in *;
    assert (A : all_digits (String c acc) = true)
      by (cbn [all_digits]; rewrite D1, Ha; reflexivity);
    pose proof (Z.div_mod n 10 ltac:(lia)) as DM;
    pose proof (Z.mod_pos_bound n 10 ltac:(lia)) as MB.
  - assert (Q : n / 10 = 0) by (apply Z.div_small; change (10 ^ Z.of_nat 1) with 10 in Hn; lia).
    rewrite Q; cbn [Z.eqb].
    split; [exact A|]. split; [discriminate|].
    rewrite decimal_value_cons, D2. rewrite Q in DM. f_equal. f_equal. lia.
  - destruct (n / 10 =? 0) eqn:Q.
    + apply Z.eqb_eq in Q.
      split; [exact A|]. split; [discriminate|].
      rewrite decimal_value_cons, D2. rewrite Q in DM. f_equal. f_equal. lia.
    + apply Z.eqb_neq in Q.
      assert (Hn' : 0 <= n / 10 < 10 ^ Z.of_nat (S f)).
      { split; [apply Z.div_pos; lia|]. apply Z.div_lt_upper_bound; [lia|].
        rewrite <- Z.pow_succ_r by lia. rewrite <- Nat2Z.inj_succ. lia. }
      destruct (IH (n / 10) _ Hn' A) as (R1 & R2 & R3).
      split; [exact R1|]. split; [exact R2|].
      rewrite R3, decimal_value_cons, D2; cbn [String.length].
      rewrite Nat2Z.inj_succ, Z.pow_succ_r by lia.
      remember (10 ^ Z.of_nat (String.length acc)) as P.
      remember (n / 10) as q; remember (n mod 10) as r.
      rewrite DM; ring.
Qed.

Lemma to_string_digits : forall z, 0 <= z ->
  all_digits (to_string z) = true /\ to_string z <> "" /\ decimal_value (to_string z) = z.
Proof.
  intros z Hz; unfold to_string.
  replace (z <? 0) with false by (symmetry; apply Z.ltb_ge; lia).
  rewrite Z.abs_eq by lia.
  assert (B : 0 <= z < 10 ^ Z.of_nat (S (Z.to_nat (Z.log2 z)))).
  { split; [lia|]. rewrite Nat2Z.inj_succ, Z2Nat.id by apply Z.log2_nonneg.
    destruct (Z.eq_dec z 0) as [->|Hz0]; [simpl; lia|].
    apply Z.lt_le_trans with (2 ^ Z.succ (Z.log2 z)).
    - apply Z.log2_spec; lia.
    - apply Z.pow_le_mono_l; split; [lia|lia]. }
  destruct (dec_digits_spec _ z "" B eq_refl) as (R1 & R2 & R3).
  split; [exact R1|]; split; [exact R2|]. rewrite R3; simpl; unfold decimal_value; simpl; lia.
Qed.

Lemma to_string_neg : forall z, z < 0 ->
  exists d, to_string z = "-" ++ d /\ d = to_string (- z).
Proof.
  intros z Hz; unfold to_string.
  replace (z <? 0) with true by (symmetry; apply Z.ltb_lt; lia).
  replace (- z <? 0) with false by (symmetry; apply Z.ltb_ge; lia).
  rewrite Z.abs_opp; eexists; split; reflexivity.
Qed.

Lemma substring_full : forall s, String.substring 0 (String.length s) s = s.
Proof. induction s as [|c s IH]; simpl; [reflexivity | rewrite IH; reflexivity]. Qed.

Lemma wrap32_small : forall z, INT_MIN <= z <= INT_MAX -> wrap32 z = z.
Proof.
  unfold wrap32, INT_MIN, INT_MAX; intros z Hz.
  rewrite Z.mod_small by lia; lia.
Qed.

Lemma tokenToNumber_digits : forall d sign,
  d <> "" -> all_digits d = true -> decimal_value d <= INT_MAX ->
  tokenToNumber d sign
  = inr (Integer (if (sign =? "-")%char then wrap32 (- decimal_value d) else decimal_value d)
                 (negb (sign =? "000")%char)).
Proof.
  intros d sign Hne Hd Hm; unfold tokenToNumber.
  rewrite all_digits_no_dot, stoi_digits by assumption.
  replace (decimal_value d <=? INT_MAX) with true by (symmetry; apply Z.leb_le; exact Hm).
  reflexivity.
Qed.

(** X5: [Integer::str()] read back.  For [v] in [(INT_MIN, INT_MAX]], the
    text after the leading space is a token that the number branches of
    [parseType] turn back into [v]: with a sign ([+] for a signed
    non-negative value, [-] for a negative one) through
    [parseSignedNumber], which marks it signed; otherwise through
    [parseNumber], unsigned.  A negative value written unsigned thus comes
    back signed. *)
Theorem Integer_str_roundtrip : forall leaf v sg,
  INT_MIN < v <= INT_MAX ->
  exists tok, str leaf (Integer v sg) = " " ++ tok
  /\ if sg || (v <? 0)
     then ((first_char tok =? "+")%char || (first_char tok =? "-")%char) = true
          /\ parseSignedNumber tok = inr (Integer v true)
     else is_digit (first_char tok) = true /\ parseNumber tok = inr (Integer v false).
Proof.
  intros leaf v sg Hv; cbn [str].
  destruct (Z.ltb_spec v 0) as [Hneg|Hpos].
  - (* negative: [to_string] writes the minus sign *)
    replace (sg && (0 <=? v)) with false
      by (destruct sg; simpl; [symmetry; apply Z.leb_gt; lia | reflexivity]).
    destruct (to_string_neg v Hneg) as [d [E Ed]].
    destruct (to_string_digits (- v) ltac:(lia)) as (D1 & D2 & D3); rewrite <- Ed in D1, D2, D3.
    exists (to_string v); split; [reflexivity|]. rewrite orb_true_r; rewrite E.
    split; [reflexivity|].
    unfold parseSignedNumber; cbn [first_char String.length append].
    replace (S (String.length d) - 1)%nat with (String.length d) by lia.
    cbn [String.substring]; rewrite substring_full.
    rewrite tokenToNumber_digits
      by first [assumption | rewrite D3; unfold INT_MIN, INT_MAX in *; lia].
    rewrite D3; simpl (("-" =? "-")%char); rewrite wrap32_small
      by (unfold INT_MIN, INT_MAX in *; lia).
    f_equal; f_equal; lia.
  - replace (0 <=? v) with true by (symmetry; apply Z.leb_le; lia).
    rewrite andb_true_r, orb_false_r.
    destruct (to_string_digits v Hpos) as (D1 & D2 & D3).
    destruct sg.
    + exists ("+" ++ to_string v); split; [reflexivity|]. split; [reflexivity|].
      unfold parseSignedNumber; cbn [first_char String.length append].
      replace (S (String.length (to_string v)) - 1)%nat with (String.length (to_string v)) by lia.
      cbn [String.substring]; rewrite substring_full.
      rewrite tokenToNumber_digits
        by first [assumption | rewrite D3; unfold INT_MIN, INT_MAX in *; lia].
      rewrite D3; reflexivity.
    + exists (to_string v); split; [reflexivity|].
      split.
      * destruct (to_string v) as [|c t]; [congruence|]; simpl in D1 |- *.
        apply andb_prop in D1; apply D1.
      * unfold parseNumber; rewrite tokenToNumber_digits
        by first [assumption | rewrite D3; unfold INT_MIN, INT_MAX in *; lia].
        rewrite D3; reflexivity.
Qed.

Lemma digits_prefix_app : forall d r acc n,
  all_digits d = true -> is_digit (first_char r) = false ->
  digits_prefix (d ++ r) acc n = digits_prefix d acc n.
Proof.
  induction d as [|c d IH]; intros r acc n Hd Hr; simpl.
  - destruct r as [|c r]; simpl in *; [reflexivity | rewrite Hr; reflexivity].
  - apply andb_prop in Hd as [Hc Hd]; rewrite Hc; apply IH; assumption.
Qed.

Lemma in_chars_app : forall c a b, in_chars c (a ++ b) = in_chars c a || in_chars c b.
Proof.
  induction a as [|d a IH]; intros b; simpl; [reflexivity|]; rewrite IH, orb_assoc; reflexivity.
Qed.

Lemma stoi_app : forall d r,
  d <> "" -> all_digits d = true -> is_digit (first_char r) = false -> stoi (d ++ r) = stoi d.
Proof.
  intros [|c t] r Hne Hd Hr; [congruence|].
  assert (Hc : is_digit c = true) by (simpl in Hd; apply andb_prop in Hd; apply Hd).
  assert (Hsp : is_cspace c = false).
  { revert Hc; unfold is_digit, is_cspace.
    destruct c as [[] [] [] [] [] [] [] []]; vm_compute; congruence. }
  assert (Hsg : (c =? "-")%char = false /\ (c =? "+")%char = false).
  { revert Hc; unfold is_digit.
    destruct c as [[] [] [] [] [] [] [] []]; vm_compute; intuition congruence. }
  unfold stoi; cbn [append skip_space]; rewrite Hsp.
  cbn [strip_sign]; rewrite (proj1 Hsg), (proj2 Hsg).
  change (String c (t ++ r)) with (String c t ++ r).
  rewrite digits_prefix_app by assumption; reflexivity.
Qed.

(** X6: [tokenToNumber] on a token made of decimal digits [d] followed by
    bytes [r] that start with no digit and hold no [.]: the bytes [r] are
    ignored ([std::stoi] stops at the first non-digit) and the token reads
    as the Integer of value [d]. *)
Theorem tokenToNumber_digit_prefix : forall d r,
  d <> "" -> all_digits d = true -> is_digit (first_char r) = false ->
  in_chars "." r = false -> decimal_value d <= INT_MAX ->
  tokenToNumber (d ++ r) "000" = inr (Integer (decimal_value d) false).
Proof.
  intros d r Hne Hd Hr Hdot Hm; unfold tokenToNumber.
  rewrite in_chars_app, all_digits_no_dot, Hdot by exact Hd; simpl orb.
  rewrite stoi_app, stoi_digits by assumption.
  replace (decimal_value d <=? INT_MAX) with true by (symmetry; apply Z.leb_le; exact Hm).
  reflexivity.
Qed.

(** ** Raw readers, line ends and the header *)

Lemma rest_same : forall a b, file a = file b -> pos a = pos b -> rest a = rest b.
Proof. unfold rest, remaining; intros a b H1 H2; rewrite H1, H2; reflexivity. Qed.

Lemma rest_length : forall st, String.length (rest st) = remaining st.
Proof.
  intros st; unfold rest, remaining.
  generalize (file st) (pos st); clear st.
  induction s as [|c s IH]; intros [|p]; simpl; try reflexivity.
  - rewrite substring_full; reflexivity.
  - apply IH.
Qed.

Lemma str_length_app : forall a b, String.length (a ++ b) = (String.length a + String.length b)%nat.
Proof. induction a as [|c a IH]; intros b; simpl; [reflexivity | rewrite IH; reflexivity]. Qed.

Lemma read_some_rest : forall st c t,
  rest st = String c t -> exists st1, read st = Some (c, st1) /\ rest st1 = t.
Proof.
  intros st c t H.
  destruct (read st) as [[c1 st1]|] eqn:R.
  - destruct (read_rest _ _ _ R) as (Hr & _). rewrite H in Hr; injection Hr as E1 E2; subst c1.
    exists st1; split; [reflexivity | symmetry; exact E2].
  - rewrite (read_none_rest _ R) in H; discriminate.
Qed.

Lemma hex_loop_closed : forall s fuel res st t,
  (String.length s < fuel)%nat -> rest st = s ++ String ">" t -> in_chars ">" s = false ->
  exists st', hex_loop fuel res st = inr (res ++ s, st') /\ rest st' = t.
Proof.
  induction s as [|c s IH]; intros [|f] res st t Hf Hr Hs; try (simpl in Hf; lia); cbn [hex_loop].
  - destruct (read_some_rest _ _ _ Hr) as [st1 [R E]]; rewrite R; cbn.
    exists st1; rewrite str_app_nil_r; split; [reflexivity | exact E].
  - destruct (read_some_rest _ _ _ Hr) as [st1 [R E]]; rewrite R.
    cbn [in_chars] in Hs; apply orb_false_iff in Hs as [Hc Hs].
    rewrite Ascii.eqb_sym, Hc.
    destruct (IH f (snoc res c) st1 t ltac:(simpl in Hf; lia) E Hs) as [st' [E1 E2]].
    exists st'; rewrite E1, str_snoc_app; split; [reflexivity | exact E2].
Qed.

Lemma hex_loop_eof : forall fuel res st,
  (remaining st < fuel)%nat -> in_chars ">" (rest st) = false ->
  exists st', hex_loop fuel res st = inr (res ++ rest st, st') /\ read st' = None.
Proof.
  induction fuel as [|f IH]; intros res st Hf Hc; [lia|]; cbn [hex_loop].
  destruct (read st) as [[c st1]|] eqn:R.
  - destruct (read_rest _ _ _ R) as (Hr & _ & _ & Hrem).
    rewrite Hr in Hc |- *; cbn [in_chars] in Hc; apply orb_false_iff in Hc as [Hc1 Hc].
    rewrite Ascii.eqb_sym, Hc1.
    destruct (IH (snoc res c) st1 ltac:(lia) Hc) as [st' [E N]].
    exists st'; rewrite E, str_snoc_app; split; [reflexivity | exact N].
  - exists st; rewrite (read_none_rest _ R), str_app_nil_r; split; [reflexivity | exact R].
Qed.

(** X7: [parseHexaString] on the bytes [s] before the first [>]: any bytes
    are taken (they are not checked to be hexadecimal digits); an odd count
    raises INVALID_HEXASTRING, an even one gives the HexaString [s] with the
    cursor just after the [>]. *)
Theorem parseHexaString_closed : forall st s t,
  rest st = s ++ String ">" t -> in_chars ">" s = false ->
  exists st', rest st' = t
  /\ parseHexaString st
     = if Nat.odd (String.length s) then inl INVALID_HEXASTRING else inr (HexaString s, st').
Proof.
  intros st s t Hr Hs; unfold parseHexaString.
  assert (Hf : (String.length s < S (remaining st))%nat).
  { rewrite <- rest_length, Hr, str_length_app; simpl; lia. }
  destruct (hex_loop_closed s _ "" st t Hf Hr Hs) as [st' [E1 E2]].
  exists st'; split; [exact E2|]. rewrite E1; reflexivity.
Qed.

(** X8: [parseHexaString] when no [>] is left before end of file: no error
    is raised for the missing [>]; every byte up to end of file is the
    HexaString (an odd count still raises INVALID_HEXASTRING). *)
Theorem parseHexaString_unterminated : forall st,
  in_chars ">" (rest st) = false ->
  exists st', read st' = None
  /\ parseHexaString st
     = if Nat.odd (String.length (rest st)) then inl INVALID_HEXASTRING
       else inr (HexaString (rest st), st').
Proof.
  intros st Hs; unfold parseHexaString.
  destruct (hex_loop_eof (S (remaining st)) "" st ltac:(lia) Hs) as [st' [E1 E2]].
  exists st'; split; [exact E2|]. rewrite E1; reflexivity.
Qed.

Lemma ps_loop_closes : forall s fuel esc cnt res st t,
  (String.length s < fuel)%nat -> rest st = s ++ String ")" t ->
  paren_closes esc cnt s = false -> paren_closes esc cnt (s ++ ")") = true ->
  exists st', ps_loop fuel esc cnt res st = inr (res ++ s, st') /\ rest st' = t.
Proof.
  induction s as [|c s IH]; intros [|f] esc cnt res st t Hf Hr H0 H1;
    try (simpl in Hf; lia); cbn [ps_loop].
  - destruct (read_some_rest _ _ _ Hr) as [st1 [R E]]; rewrite R.
    cbn [append paren_closes] in H1.
    destruct (_ && _ && _); [|discriminate].
    exists st1; rewrite str_app_nil_r; split; [reflexivity | exact E].
  - destruct (read_some_rest _ _ _ Hr) as [st1 [R E]]; rewrite R.
    cbn [append paren_closes] in H0, H1.
    destruct (_ && _ && _); [discriminate|].
    destruct (IH f _ _ (snoc res c) st1 t ltac:(simpl in Hf; lia) E H0 H1) as [st' [E1 E2]].
    exists st'; rewrite E1, str_snoc_app; split; [reflexivity | exact E2].
Qed.

(** X9: [parseString] stops on the [)] that brings the nesting counter of
    parentheses back to zero: when the bytes [s] before it do not, the
    String is [s] (escapes and nested parentheses kept as they are) and the
    cursor is just after that [)]. *)
Theorem parseString_closed : forall st s t,
  rest st = s ++ String ")" t ->
  paren_closes false 1 s = false -> paren_closes false 1 (s ++ ")") = true ->
  exists st', parseString st = inr (VString s, st') /\ rest st' = t.
Proof.
  intros st s t Hr H0 H1; unfold parseString.
  assert (Hf : (String.length s < S (remaining st))%nat).
  { rewrite <- rest_length, Hr, str_length_app; simpl; lia. }
  destruct (ps_loop_closes s _ false 1 "" st t Hf Hr H0 H1) as [st' [E1 E2]].
  exists st'; rewrite E1; split; [reflexivity | exact E2].
Qed.

Lemma finishLine_loop_rest : forall s fuel st c t,
  (String.length s < fuel)%nat -> rest st = s ++ String c t ->
  str_forallb (fun x => negb (is_newline x)) s = true -> is_newline c = true ->
  rest (finishLine_loop fuel st) = t /\ file (finishLine_loop fuel st) = file st.
Proof.
  induction s as [|d s IH]; intros [|f] st c t Hf Hr Hs Hc; try (simpl in Hf; lia);
    cbn [finishLine_loop].
  - destruct (read_some_rest _ _ _ Hr) as [st1 [R E]]; rewrite R, Hc.
    split; [exact E | apply (read_frame _ _ _ R)].
  - destruct (read_some_rest _ _ _ Hr) as [st1 [R E]]; rewrite R.
    cbn [str_forallb] in Hs; apply andb_prop in Hs as [Hd Hs].
    apply negb_true_iff in Hd; rewrite Hd.
    destruct (IH f st1 c t ltac:(simpl in Hf; lia) E Hs Hc) as [E1 E2].
    split; [exact E1|]. rewrite E2; apply (read_frame _ _ _ R).
Qed.

Lemma finishLine_loop_eof : forall fuel st,
  (remaining st < fuel)%nat -> str_forallb (fun x => negb (is_newline x)) (rest st) = true ->
  rest (finishLine_loop fuel st) = "".
Proof.
  induction fuel as [|f IH]; intros st Hf Hs; [lia|]; cbn [finishLine_loop].
  destruct (read st) as [[c st1]|] eqn:R.
  - destruct (read_rest _ _ _ R) as (Hr & _ & _ & Hrem).
    rewrite Hr in Hs; cbn [str_forallb] in Hs; apply andb_prop in Hs as [Hc Hs].
    apply negb_true_iff in Hc; rewrite Hc. apply IH; [lia | exact Hs].
  - apply read_none_rest; exact R.
Qed.

(** X10: [finishLine] skips the rest of the line and its line break, and then
    one more byte if it is a line break too: after [\r\n] or [\n\r], but
    also after [\n\n], which swallows the empty line that follows.  With no
    line break left it stops at end of file. *)
Theorem finishLine_skips : forall st,
  (str_forallb (fun x => negb (is_newline x)) (rest st) = true -> rest (finishLine st) = "")
  /\ (forall s c t, rest st = s ++ String c t ->
      str_forallb (fun x => negb (is_newline x)) s = true -> is_newline c = true ->
      rest (finishLine st)
      = match t with
        | String c2 t2 => if is_newline c2 then t2 else t
        | EmptyString => EmptyString
        end).
Proof.
  intros st; split.
  - intros Hs; unfold finishLine.
    pose proof (finishLine_loop_eof (S (remaining st)) st ltac:(lia) Hs) as E.
    destruct (read (finishLine_loop _ st)) as [[c st2]|] eqn:R; [|exact E].
    destruct (read_rest _ _ _ R) as (Hr & _); rewrite E in Hr; discriminate.
  - intros s c t Hr Hs Hc; unfold finishLine.
    assert (Hf : (String.length s < S (remaining st))%nat).
    { rewrite <- rest_length, Hr, str_length_app; simpl; lia. }
    destruct (finishLine_loop_rest s _ st c t Hf Hr Hs Hc) as [E _].
    set (st1 := finishLine_loop _ st) in *.
    destruct t as [|c2 t2].
    + destruct (read st1) as [[c3 st2]|] eqn:R; [|exact E].
      destruct (read_rest _ _ _ R) as (Hr1 & _); rewrite E in Hr1; discriminate.
    + destruct (read_some_rest _ _ _ E) as [st2 [R E2]]; rewrite R.
      destruct (is_newline c2); [exact E2|].
      destruct (read_rest _ _ _ R) as (_ & F & P & _).
      unfold seek_back1; rewrite <- E; apply rest_same; simpl; [exact F | rewrite P; reflexivity].
Qed.

(** ** The layout of the written files *)

Lemma substring_app_skip : forall a b p n,
  String.substring (String.length a + p) n (a ++ b) = String.substring p n b.
Proof. induction a as [|c a IH]; intros; simpl; [reflexivity | apply IH]. Qed.

Lemma substring_prefix : forall b c, String.substring 0 (String.length b) (b ++ c) = b.
Proof. induction b as [|x b IH]; intros; simpl; [apply substring_zero | rewrite IH; reflexivity]. Qed.

Lemma substring_prefix_app : forall a b p n,
  (p + n <= String.length a)%nat -> String.substring p n (a ++ b) = String.substring p n a.
Proof.
  induction a as [|c a IH]; intros b p n H; simpl in H.
  - assert (n = 0%nat) by lia; assert (p = 0%nat) by lia; subst; simpl; apply substring_zero.
  - destruct p as [|p]; simpl.
    + destruct n as [|n]; [reflexivity|]. rewrite (IH b 0%nat n) by lia; reflexivity.
    + apply IH; lia.
Qed.

Lemma substring_short : forall a p n, (0 < n)%nat ->
  (String.length a < p + n)%nat -> String.length (String.substring p n a) <> n.
Proof.
  induction a as [|c a IH]; intros p n Hn H; simpl in H.
  - destruct p, n; simpl; lia.
  - destruct p as [|p]; simpl.
    + destruct n as [|n]; [lia|]. simpl. intros E; injection E as E.
      destruct n as [|n]; [simpl in E; lia|].
      revert E; apply (IH 0%nat (S n)); lia.
    + apply IH; lia.
Qed.

Lemma written_at_app : forall a b off s, written_at a off s -> written_at (a ++ b) off s.
Proof.
  unfold written_at; intros a b off s [H0 H].
  split; [exact H0|].
  destruct (Nat.le_gt_cases (Z.to_nat off + String.length s) (String.length a)) as [L|L].
  - rewrite substring_prefix_app by exact L; exact H.
  - destruct (String.length s) as [|n] eqn:Ls.
    + rewrite substring_zero; destruct s; [reflexivity | discriminate].
    + exfalso; apply (substring_short a (Z.to_nat off) (S n)); [lia | exact L |].
      rewrite H; exact Ls.
Qed.

Lemma written_at_here : forall a s c, written_at (a ++ s ++ c) (Z.of_nat (String.length a)) s.
Proof.
  intros a s c; split; [lia|]. rewrite Nat2Z.id.
  rewrite <- (Nat.add_0_r (String.length a)), substring_app_skip.
  apply substring_prefix.
Qed.

Lemma last_default : forall (l : list Z) a b, l <> [] -> last l a = last l b.
Proof.
  induction l as [|x l IH]; intros a b H; [congruence|].
  destruct l as [|y l]; [reflexivity|]. simpl. apply IH; discriminate.
Qed.

Lemma last_cons : forall (l : list Z) x d, last (x :: l) d = last l x.
Proof.
  intros l x d; destruct l as [|y l]; [reflexivity|].
  change (last (x :: y :: l) d) with (last (y :: l) d). apply last_default; discriminate.
Qed.

Lemma write_new_layout : forall leaf l out xref nb co out' xref' nb' co',
  write_new leaf l out xref nb co = (out', xref', nb', co') ->
  exists ents : list (Object * Z), map fst ents = filter isNew l
  /\ out' = out ++ String.concat "" (map (fun e => Object_str leaf (fst e)) ents)
  /\ xref' = xref ++ String.concat "" (map (fun e => xref_entry " n" (fst e) (snd e)) ents)
  /\ nb' = (nb + length ents)%nat
  /\ co' = last (map snd ents) co
  /\ Forall (fun e => written_at out' (snd e) (Object_str leaf (fst e))) ents.
Proof.
  intros leaf; induction l as [|o t IH]; intros out xref nb co out' xref' nb' co' W.
  - simpl in W; injection W as <- <- <- <-.
    exists []; simpl; rewrite !str_app_nil_r; repeat split; auto; lia.
  - cbn [write_new filter] in W |- *. destruct (isNew o); cbn [negb] in W.
    + apply IH in W; destruct W as (ents & E1 & E2 & E3 & E4 & E5 & E6).
      exists ((o, Z.of_nat (String.length out)) :: ents); cbn [map fst snd length].
      rewrite E1; split; [reflexivity|].
      rewrite !concat_empty_cons.
      split; [rewrite E2, str_app_assoc; reflexivity|].
      split; [rewrite E3, str_app_assoc; reflexivity|].
      split; [lia|]. split; [rewrite last_cons; exact E5|].
      constructor; [|exact E6].
      rewrite E2, str_app_assoc; apply written_at_here.
    + apply IH in W; exact W.
Qed.

(** X14: what [writeUpdate] appends to the target file when some Object is
    new: a carriage return, each new Object's [str()] in order, the xref
    section listing each of them with the byte offset it was written at
    (counted from the start of the file, the old bytes included), the
    trailer (the parser's trailer dictionary with [Prev] deleted and set
    again to the parse-time xref offset cast to [int], which is also the
    trailer the parser keeps), and a [startxref] giving the offset of
    [xref].  The offset of each xref entry is where the Object's bytes
    stand in the file, and [curOffset] is left at the offset of the last
    one. *)
Theorem writeUpdate_layout : forall leaf st target,
  exists ents : list (Object * Z),
  map fst ents = filter isNew (objects st)
  /\ Forall (fun e => written_at (fst (writeUpdate leaf st target)) (snd e)
                                 (Object_str leaf (fst e))) ents
  /\ (ents <> [] ->
      let body := target ++ String "013"%char EmptyString
                  ++ String.concat "" (map (fun e => Object_str leaf (fst e)) ents) in
      let d := map_insert "Prev" (Some (Integer (wrap32 (xrefOffset st)) false))
                          (map_delete "Prev" (odict (trailer st))) in
      fst (writeUpdate leaf st target)
      = body ++ "xref" ++ LF
        ++ String.concat "" (map (fun e => xref_entry " n" (fst e) (snd e)) ents)
        ++ "trailer" ++ LF ++ Dictionary_str leaf d
        ++ "startxref" ++ LF ++ to_string (Z.of_nat (String.length body)) ++ LF ++ "%%EOF"
      /\ odict (trailer (snd (writeUpdate leaf st target))) = d
      /\ curOffset (snd (writeUpdate leaf st target)) = last (map snd ents) 0).
Proof.
  intros leaf st target; unfold writeUpdate.
  destruct (write_new leaf (objects st) _ _ 0 (curOffset st)) as [[[out1 xref] nb] co] eqn:W.
  apply write_new_layout in W; destruct W as (ents & E1 & E2 & E3 & E4 & E5 & E6).
  exists ents; split; [exact E1|].
  destruct (Nat.eqb_spec nb 0) as [Z0|Z0].
  - destruct ents; [|simpl in E4; lia].
    split; [constructor | intros H; congruence].
  - split.
    + cbn [fst]. eapply Forall_impl; [|exact E6]; intros e He; apply written_at_app, He.
    + intros Hne; cbv zeta; cbn [fst snd]; split; [|split].
      * rewrite E3, E2. rewrite !str_app_assoc. reflexivity.
      * reflexivity.
      * cbn [curOffset set_curOffset]. rewrite E5; apply last_default.
        destruct ents; [congruence | discriminate].
Qed.

Lemma write_all_layout : forall leaf l out xref nb co out' xref' nb' co',
  write_all leaf l out xref nb co = (out', xref', nb', co') ->
  exists ents : list (Object * Z), map fst ents = l
  /\ out' = out ++ String.concat "" (map (fun e => Object_str leaf (fst e)) ents)
  /\ xref' = xref ++ String.concat ""
               (map (fun e => xref_entry (if used (fst e) then " n" else " f") (fst e) (snd e)) ents)
  /\ nb' = (nb + length ents)%nat
  /\ co' = last (map snd ents) co
  /\ Forall (fun e => written_at out' (snd e) (Object_str leaf (fst e))) ents.
Proof.
  intros leaf; induction l as [|o t IH]; intros out xref nb co out' xref' nb' co' W.
  - simpl in W; injection W as <- <- <- <-.
    exists []; simpl; rewrite !str_app_nil_r; repeat split; auto; lia.
  - cbn [write_all] in W.
    apply IH in W; destruct W as (ents & E1 & E2 & E3 & E4 & E5 & E6).
    exists ((o, Z.of_nat (String.length out)) :: ents); cbn [map fst snd length].
    rewrite E1; split; [reflexivity|].
    rewrite !concat_empty_cons.
    split; [rewrite E2, str_app_assoc; reflexivity|].
    split; [rewrite E3, str_app_assoc; reflexivity|].
    split; [lia|]. split; [rewrite last_cons; exact E5|].
    constructor; [|exact E6].
    rewrite E2, str_app_assoc; apply written_at_here.
Qed.

(** X15: what [Parser::write(filename, false)] writes: the header, every
    Object's [str()] in order, the xref section (the entry [0] free, then
    one entry per Object with the offset it was written at, flagged [n] if
    the Object is used and [f] otherwise), the trailer (the parser's
    trailer dictionary with [Prev] and [Size] deleted, [Size] set to the
    number of Objects plus one, then [XRefStm] deleted; the parser keeps it
    as its trailer) and a [startxref] giving the offset of [xref];
    [curOffset] is left at the offset of the last Object.  There is no output only where the header does not fit
    (see [header_bytes]). *)
Theorem writeFull_layout : forall leaf st,
  match writeFull leaf st with
  | None => header_bytes (header_str st) = None
  | Some (out, st') =>
      exists h (ents : list (Object * Z)),
      let d := map_delete "XRefStm"
                 (map_insert "Size" (Some (Integer (Z.of_nat (S (length (objects st)))) false))
                    (map_delete "Size" (map_delete "Prev" (odict (trailer st))))) in
      header_bytes (header_str st) = Some h
      /\ map fst ents = objects st
      /\ Forall (fun e => written_at out (snd e) (Object_str leaf (fst e))) ents
      /\ (let body := h ++ String.concat "" (map (fun e => Object_str leaf (fst e)) ents) in
          out = body ++ "xref" ++ LF ++ "0 1 f" ++ CRLF ++ "0000000000 65535 f" ++ CRLF
                ++ String.concat ""
                     (map (fun e => xref_entry (if used (fst e) then " n" else " f")
                                               (fst e) (snd e)) ents)
                ++ "trailer" ++ LF ++ Dictionary_str leaf d
                ++ "startxref" ++ LF ++ to_string (Z.of_nat (String.length body)) ++ LF
                ++ "%%EOF")
      /\ odict (trailer st') = d
      /\ curOffset st' = last (map snd ents) (curOffset st)
  end.
Proof.
  intros leaf st; unfold writeFull.
  destruct (header_bytes (header_str st)) as [h|] eqn:Hh; [|reflexivity].
  destruct (write_all leaf (objects st) h _ 1 (curOffset st)) as [[[out1 xref] nb] co] eqn:W.
  apply write_all_layout in W; destruct W as (ents & E1 & E2 & E3 & E4 & E5 & E6).
  assert (L : length ents = length (objects st)) by (rewrite <- E1, length_map; reflexivity).
  exists h, ents; cbv zeta; split; [reflexivity|]; split; [exact E1|].
  split; [eapply Forall_impl; [|exact E6]; intros e He; apply written_at_app, He|].
  rewrite E4, L; cbn [Nat.add].
  split; [rewrite E3, E2, !str_app_assoc; reflexivity|].
  split; [reflexivity|exact E5].
Qed.

Lemma map_delete_sorted_find : forall k k' m,
  Sorted key_lt m ->
  map_find k' (map_delete k m) = if String.eqb k' k then None else map_find k' m.
Proof.
  intros k k' m H; destruct (String.eqb k' k) eqn:E.
  - apply String.eqb_eq in E; subst; apply map_find_delete_same, H.
  - apply String.eqb_neq in E; apply map_find_delete_other, E.
Qed.

(** X16: the trailer [Parser::write(filename, false)] leaves, from a trailer
    dictionary kept as a sorted map: [Size] is one more than the number of
    Objects (the free entry [0] counted), [Prev] and [XRefStm] are gone,
    and every other key keeps its value. *)
Theorem writeFull_trailer : forall leaf st,
  Sorted key_lt (odict (trailer st)) ->
  match writeFull leaf st with
  | None => True
  | Some (_, st') =>
      map_find "Size" (odict (trailer st'))
        = Some (Some (Integer (Z.of_nat (S (length (objects st)))) false))
      /\ map_find "Prev" (odict (trailer st')) = None
      /\ map_find "XRefStm" (odict (trailer st')) = None
      /\ forall k, k <> "Size" -> k <> "Prev" -> k <> "XRefStm" ->
         map_find k (odict (trailer st')) = map_find k (odict (trailer st))
  end.
Proof.
  intros leaf st Hs; unfold writeFull.
  destruct (header_bytes (header_str st)) as [h|]; [|exact I].
  destruct (write_all leaf (objects st) h _ 1 (curOffset st)) as [[[out1 xref] nb] co] eqn:W.
  apply write_all_layout in W; destruct W as (ents & E1 & _ & _ & E4 & _ & _); subst nb.
  cbn [trailer set_curOffset set_trailer odict set_odict].
  assert (S1 : Sorted key_lt (map_delete "Prev" (odict (trailer st))))
    by (apply map_delete_sorted, Hs).
  assert (S2 : Sorted key_lt (map_delete "Size" (map_delete "Prev" (odict (trailer st)))))
    by (apply map_delete_sorted, S1).
  assert (S3 : forall v, Sorted key_lt (map_insert "Size" v
                 (map_delete "Size" (map_delete "Prev" (odict (trailer st))))))
    by (intros; apply map_insert_sorted, S2).
  rewrite !(map_delete_sorted_find "XRefStm") by apply S3.
  rewrite !map_find_insert_cases.
  rewrite !(map_delete_sorted_find "Size") by exact S1.
  rewrite !(map_delete_sorted_find "Prev") by exact Hs.
  rewrite <- E1, length_map. cbn [String.eqb Ascii.eqb Bool.eqb andb].
  split; [f_equal; f_equal; f_equal; lia|].
  split; [reflexivity|]. split; [reflexivity|].
  intros k K1 K2 K3.
  rewrite (map_delete_sorted_find "XRefStm") by apply S3.
  rewrite map_find_insert_cases, (map_delete_sorted_find "Size") by exact S1.
  rewrite (map_delete_sorted_find "Prev") by exact Hs.
  apply String.eqb_neq in K1, K2, K3; rewrite K1, K2, K3; reflexivity.
Qed.

Lemma to_string_one_digit : forall v, 0 <= v <= 9 -> String.length (to_string v) = 1%nat.
Proof.
  intros v Hv; unfold to_string.
  replace (v <? 0) with false by (symmetry; apply Z.ltb_ge; lia).
  rewrite dec_digits_S.
  replace (v / 10 =? 0) with true by (symmetry; apply Z.eqb_eq, Z.div_small; lia).
  reflexivity.
Qed.

Lemma header_str_length : forall st,
  String.length (header_str st)
  = (14 + String.length (to_string (version_major st))
        + String.length (to_string (version_minor st)))%nat.
Proof. intros st; unfold header_str; rewrite !str_length_app; simpl; lia. Qed.

Lemma writeFull_some : forall leaf st h,
  header_bytes (header_str st) = Some h -> exists r st', writeFull leaf st = Some (h ++ r, st').
Proof.
  intros leaf st h H; unfold writeFull; rewrite H.
  destruct (write_all leaf (objects st) h _ 1 (curOffset st)) as [[[out1 xref] nb] co] eqn:W.
  apply write_all_layout in W; destruct W as (ents & _ & E2 & _).
  do 2 eexists; rewrite E2, str_app_assoc; reflexivity.
Qed.

(** X17: the header [Parser::write(filename, false)] writes, by the number
    [n] of characters of the two version numbers: for [n <= 3] (one digit
    each, as [parseHeader] reads them, gives [n = 2]) the whole
    [%PDF-M.m\r%] line with its four binary bytes and [\r\n]; for [n = 4]
    the text is one byte too long for [header[18]] and its final [\n] is
    written as a NUL byte; for [n >= 5] the write reads past the buffer
    (no output in the model). *)
Theorem writeFull_header : forall leaf st,
  let n := (String.length (to_string (version_major st))
            + String.length (to_string (version_minor st)))%nat in
  (0 <= version_major st <= 9 -> 0 <= version_minor st <= 9 -> n = 2%nat)
  /\ ((n <= 3)%nat -> exists r st', writeFull leaf st = Some (header_str st ++ r, st'))
  /\ (n = 4%nat ->
      exists r st', writeFull leaf st
        = Some ("%PDF-" ++ to_string (version_major st) ++ "." ++ to_string (version_minor st)
                ++ String "013"%char ("%" ++ String "226"%char (String "227"%char
                     (String "207"%char (String "211"%char
                       (String "013"%char (String "000"%char EmptyString))))))
                ++ r, st'))
  /\ ((5 <= n)%nat -> writeFull leaf st = None).
Proof.
  intros leaf st n; pose proof (header_str_length st) as L; fold n in L.
  split; [|split; [|split]].
  - intros H1 H2; unfold n; rewrite !to_string_one_digit by assumption; reflexivity.
  - intros Hn; apply writeFull_some; unfold header_bytes.
    replace (String.length (header_str st) <=? 17)%nat with true
      by (symmetry; apply Nat.leb_le; lia); reflexivity.
  - intros Hn.
    destruct (writeFull_some leaf st
                (String.substring 0 17 (header_str st) ++ String "000"%char EmptyString))
      as (r & st' & E).
    { unfold header_bytes.
      replace (String.length (header_str st) <=? 17)%nat with false
        by (symmetry; apply Nat.leb_gt; lia).
      replace (String.length (header_str st) =? 18)%nat with true
        by (symmetry; apply Nat.eqb_eq; lia); reflexivity. }
    exists r, st'; rewrite E; f_equal; f_equal.
    assert (P : String.substring 0 17 (header_str st)
               = "%PDF-" ++ to_string (version_major st) ++ "." ++ to_string (version_minor st)
                 ++ String "013"%char ("%" ++ String "226"%char (String "227"%char
                      (String "207"%char (String "211"%char (String "013"%char EmptyString)))))).
    { unfold header_str. unfold n in Hn.
      set (a := to_string (version_major st)) in *; set (b := to_string (version_minor st)) in *.
      replace 17%nat with (String.length ("%PDF-" ++ a ++ "." ++ b
                 ++ String "013"%char ("%" ++ String "226"%char (String "227"%char
                      (String "207"%char (String "211"%char (String "013"%char EmptyString)))))))
        by (rewrite !str_length_app; simpl; lia).
      change CRLF with (String "013"%char EmptyString ++ LF).
      replace ("%PDF-" ++ a ++ "." ++ b ++ String "013"%char ("%" ++ String "226"%char
                 (String "227"%char (String "207"%char (String "211"%char
                   (String "013"%char EmptyString ++ LF))))))
        with (("%PDF-" ++ a ++ "." ++ b ++ String "013"%char ("%" ++ String "226"%char
                 (String "227"%char (String "207"%char (String "211"%char
                   (String "013"%char EmptyString)))))) ++ LF)
        by (rewrite !str_app_assoc; reflexivity).
      apply substring_prefix. }
    rewrite P, !str_app_assoc; reflexivity.
  - intros Hn; unfold writeFull, header_bytes.
    replace (String.length (header_str st) <=? 17)%nat with false
      by (symmetry; apply Nat.leb_gt; lia).
    replace (String.length (header_str st) =? 18)%nat with false
      by (symmetry; apply Nat.eqb_neq; lia); reflexivity.
Qed.

Lemma readline_take : forall p fuel buf st t eof,
  (String.length p < fuel)%nat -> rest st = p ++ t ->
  str_forallb (fun x => negb (is_newline x)) p = true ->
  exists st', readline_loop fuel (String.length p) eof buf st
              = inr (buf ++ p, Z.of_nat (String.length (buf ++ p)), st')
  /\ rest st' = t /\ frame st st'.
Proof.
  induction p as [|c p IH]; intros [|f] buf st t eof Hf Hr Hp; try (simpl in Hf; lia).
  - exists st; cbn [readline_loop String.length]; rewrite str_app_nil_r.
    split; [reflexivity|]. split; [exact Hr | apply frame_refl].
  - cbn [readline_loop String.length].
    destruct (read_some_rest st c (p ++ t) Hr) as [st1 [R E]]; rewrite R.
    cbn [str_forallb] in Hp; apply andb_prop in Hp as [Hc Hp].
    apply negb_true_iff in Hc; rewrite Hc.
    destruct (IH f (snoc buf c) st1 t eof ltac:(simpl in Hf; lia) E Hp) as (st' & E1 & E2 & E3).
    exists st'; rewrite E1, str_snoc_app; split; [reflexivity|].
    split; [exact E2 | eapply frame_trans; [eapply read_frame; exact R | exact E3]].
Qed.

Lemma readline_skip : forall nls fuel k st u eof,
  (String.length nls <= fuel)%nat -> rest st = nls ++ u -> str_forallb is_newline nls = true ->
  exists st', rest st' = u /\ frame st st'
  /\ readline_loop fuel (S k) eof "" st
     = readline_loop (fuel - String.length nls) (S k) eof "" st'.
Proof.
  induction nls as [|c nls IH]; intros fuel k st u eof Hf Hr Hn.
  - exists st; split; [exact Hr|]; split; [apply frame_refl|].
    rewrite Nat.sub_0_r; reflexivity.
  - destruct fuel as [|f]; [simpl in Hf; lia|].
    cbn [readline_loop].
    destruct (read_some_rest st c (nls ++ u) Hr) as [st1 [R E]]; rewrite R.
    cbn [str_forallb] in Hn; apply andb_prop in Hn as [Hc Hn]; rewrite Hc.
    destruct (IH f k st1 u eof ltac:(simpl in Hf; lia) E Hn) as (st' & E1 & E2 & E3).
    exists st'; split; [exact E1|].
    split; [eapply frame_trans; [eapply read_frame; exact R | exact E2]|].
    rewrite E3; reflexivity.
Qed.

Lemma digit_not_newline : forall c, is_digit c = true -> is_newline c = false.
Proof.
  intros c; unfold is_digit, is_newline.
  destruct c as [[] [] [] [] [] [] [] []]; vm_compute; congruence.
Qed.

(** X11: [parseHeader] accepts [%PDF-M.m] after any number of line-break
    bytes, [M] and [m] being one decimal digit each: it sets the version
    to [M.m], ignores the rest of the line ([finishLine]) and leaves
    [curOffset] at the cursor once that line is finished. *)
Theorem parseHeader_accepts : forall st nls M m t,
  rest st = nls ++ "%PDF-" ++ String M (String "." (String m t)) ->
  str_forallb is_newline nls = true -> is_digit M = true -> is_digit m = true ->
  exists st', parseHeader st = inr st'
  /\ version_major st' = digit_val M /\ version_minor st' = digit_val m
  /\ curOffset st' = tell st'
  /\ exists x, rest x = t /\ file x = file st /\ rest st' = rest (finishLine x).
Proof.
  intros st nls M m t Hr Hn HM Hm.
  pose proof (digit_not_newline M HM) as HM'; pose proof (digit_not_newline m Hm) as Hm'.
  assert (L : String.length (rest st) = remaining st) by apply rest_length.
  rewrite Hr, str_length_app in L; cbn [String.length append] in L.
  unfold parseHeader, readline.
  destruct (readline_skip nls (S (remaining st)) 4 st _ false ltac:(lia) Hr Hn)
    as (s1 & R1 & F1 & E1).
  rewrite E1.
  destruct (readline_take "%PDF-" (S (remaining st) - String.length nls) "" s1
              (String M (String "." (String m t))) false ltac:(cbn [String.length]; lia) R1 eq_refl)
    as (s2 & E2 & R2 & F2).
  cbn [String.length] in E2; rewrite E2; cbn [bindr].
  cbn [append String.eqb Ascii.eqb Bool.eqb andb negb].
  pose proof (rest_length s2) as L2; rewrite R2 in L2; cbn [String.length] in L2.
  destruct (readline_take (String M EmptyString) (S (remaining s2)) "" s2
              (String "." (String m t)) false ltac:(cbn [String.length]; lia) R2
              ltac:(simpl; rewrite HM'; reflexivity)) as (s3 & E3 & R3 & F3).
  cbn [String.length] in E3; rewrite E3; cbn [bindr append first_char]; rewrite HM; cbn [negb].
  pose proof (rest_length s3) as L3; rewrite R3 in L3; cbn [String.length] in L3.
  destruct (readline_take "." (S (remaining s3)) "" s3
              (String m t) false ltac:(cbn [String.length]; lia) R3 eq_refl) as (s4 & E4 & R4 & F4).
  cbn [String.length] in E4; rewrite E4; cbn [bindr append first_char Ascii.eqb Bool.eqb andb negb].
  pose proof (rest_length s4) as L4; rewrite R4 in L4; cbn [String.length] in L4.
  destruct (readline_take (String m EmptyString) (S (remaining s4)) "" s4
              t false ltac:(cbn [String.length]; lia) R4
              ltac:(simpl; rewrite Hm'; reflexivity)) as (s5 & E5 & R5 & F5).
  cbn [String.length] in E5; rewrite E5; cbn [bindr append first_char]; rewrite Hm; cbn [negb].
  eexists; split; [reflexivity|].
  pose proof (finishLine_frame (set_version s5 (digit_val M) (digit_val m))) as FL.
  destruct FL as (FL1 & _ & _ & _ & _ & _ & FL7 & FL8).
  cbn [set_curOffset version_major version_minor curOffset tell pos].
  split; [rewrite FL7; reflexivity|]. split; [rewrite FL8; reflexivity|]. split; [reflexivity|].
  exists (set_version s5 (digit_val M) (digit_val m)).
  split; [rewrite <- R5; apply rest_same; reflexivity|].
  split.
  - cbn [file set_version].
    destruct F1 as (G1 & _); destruct F2 as (G2 & _); destruct F3 as (G3 & _);
      destruct F4 as (G4 & _); destruct F5 as (G5 & _); congruence.
  - apply rest_same; reflexivity.
Qed.

(** X12: [parseType] never changes the document: whatever value it reads
    (nested arrays and dictionaries included), the file, the Objects, the
    trailer, the xref table and offset, the Object handed down and the
    version are those it started with; only the cursor and [curOffset]
    move. *)
Theorem parseType_keeps_document : forall fuel tok st v st',
  parseType fuel tok st = inr (v, st') ->
  file st' = file st /\ objects st' = objects st /\ trailer st' = trailer st
  /\ xrefOffset st' = xrefOffset st /\ xrefTable st' = xrefTable st /\ cur st' = cur st
  /\ version_major st' = version_major st /\ version_minor st' = version_minor st.
Proof.
  intros fuel tok st v st' H.
  exact (proj1 (parse_values_frame fuel) tok st v st' H).
Qed.

(** X13: an Object number made of decimal digits that does not fit an [int]
    makes [parseObject] raise [std::out_of_range]: only
    [std::invalid_argument] is turned into INVALID_OBJECT. *)
Theorem parseObject_id_out_of_range : forall fuel tok st,
  tok <> "" -> all_digits tok = true -> INT_MAX < decimal_value tok ->
  parseObject fuel tok st = inl StdOutOfRange.
Proof.
  intros fuel tok st Hne Hd Hm; unfold parseObject.
  rewrite stoi_digits by assumption.
  replace (decimal_value tok <=? INT_MAX) with false by (symmetry; apply Z.leb_gt; exact Hm).
  reflexivity.
Qed.

(** ** Witnesses *)

Lemma nextToken_token_bytes_witness :
  nextToken true false token_example = inr ("<<", token_example_after)
  /\ (str_forallb token_byte "<<" = true
      /\ (in_chars (first_char "<<") start_delims = true -> In "<<" delim_tokens)).
Proof.
  assert (H : nextToken true false token_example = inr ("<<", token_example_after))
    by (vm_compute; reflexivity).
  split; [exact H | exact (nextToken_token_bytes true token_example "<<" token_example_after H)].
Defined.

Lemma Integer_str_roundtrip_witness :
  INT_MIN < -5 <= INT_MAX
  /\ exists tok, str (fun _ => "") (Integer (-5) false) = " " ++ tok
  /\ if false || (-5 <? 0)
     then ((first_char tok =? "+")%char || (first_char tok =? "-")%char) = true
          /\ parseSignedNumber tok = inr (Integer (-5) true)
     else is_digit (first_char tok) = true /\ parseNumber tok = inr (Integer (-5) false).
Proof.
  assert (H : INT_MIN < -5 <= INT_MAX) by (unfold INT_MIN, INT_MAX; lia).
  split; [exact H | exact (Integer_str_roundtrip (fun _ => "") (-5) false H)].
Defined.

Lemma tokenToNumber_digit_prefix_witness :
  ("12" <> "" /\ all_digits "12" = true /\ is_digit (first_char "abc") = false
   /\ in_chars "." "abc" = false /\ decimal_value "12" <= INT_MAX)
  /\ tokenToNumber ("12" ++ "abc") "000" = inr (Integer (decimal_value "12") false).
Proof.
  assert (H1 : "12" <> "") by discriminate.
  assert (H2 : all_digits "12" = true) by reflexivity.
  assert (H3 : is_digit (first_char "abc") = false) by reflexivity.
  assert (H4 : in_chars "." "abc" = false) by reflexivity.
  assert (H5 : decimal_value "12" <= INT_MAX)
    by (replace (decimal_value "12") with 12 by (vm_compute; reflexivity);
        unfold INT_MAX; lia).
  split; [tauto | exact (tokenToNumber_digit_prefix "12" "abc" H1 H2 H3 H4 H5)].
Defined.

Lemma parseHexaString_closed_witness :
  (rest hexa_example = "0A1f" ++ String ">" "]" /\ in_chars ">" "0A1f" = false)
  /\ exists st', rest st' = "]"
  /\ parseHexaString hexa_example
     = if Nat.odd (String.length "0A1f") then inl INVALID_HEXASTRING
       else inr (HexaString "0A1f", st').
Proof.
  assert (H1 : rest hexa_example = "0A1f" ++ String ">" "]") by (vm_compute; reflexivity).
  assert (H2 : in_chars ">" "0A1f" = false) by reflexivity.
  split; [tauto | exact (parseHexaString_closed hexa_example "0A1f" "]" H1 H2)].
Defined.

Lemma parseHexaString_unterminated_witness :
  in_chars ">" (rest hexa_open_example) = false
  /\ exists st', read st' = None
  /\ parseHexaString hexa_open_example
     = if Nat.odd (String.length (rest hexa_open_example)) then inl INVALID_HEXASTRING
       else inr (HexaString (rest hexa_open_example), st').
Proof.
  assert (H : in_chars ">" (rest hexa_open_example) = false) by (vm_compute; reflexivity).
  split; [exact H | exact (parseHexaString_unterminated hexa_open_example H)].
Defined.

Lemma parseString_closed_witness :
  (rest string_example = "a(b)c" ++ String ")" " x"
   /\ paren_closes false 1 "a(b)c" = false /\ paren_closes false 1 ("a(b)c" ++ ")") = true)
  /\ exists st', parseString string_example = inr (VString "a(b)c", st') /\ rest st' = " x".
Proof.
  assert (H1 : rest string_example = "a(b)c" ++ String ")" " x") by (vm_compute; reflexivity).
  assert (H2 : paren_closes false 1 "a(b)c" = false) by (vm_compute; reflexivity).
  assert (H3 : paren_closes false 1 ("a(b)c" ++ ")") = true) by (vm_compute; reflexivity).
  split; [tauto | exact (parseString_closed string_example "a(b)c" " x" H1 H2 H3)].
Defined.

Lemma writeFull_trailer_witness :
  Sorted key_lt (odict (trailer update_example_state))
  /\ match writeFull (fun _ => "") update_example_state with
     | None => True
     | Some (_, st') =>
         map_find "Size" (odict (trailer st'))
           = Some (Some (Integer (Z.of_nat (S (length (objects update_example_state)))) false))
         /\ map_find "Prev" (odict (trailer st')) = None
         /\ map_find "XRefStm" (odict (trailer st')) = None
         /\ forall k, k <> "Size" -> k <> "Prev" -> k <> "XRefStm" ->
            map_find k (odict (trailer st')) = map_find k (odict (trailer update_example_state))
     end.
Proof.
  assert (H : Sorted key_lt (odict (trailer update_example_state))).
  { cbn. repeat constructor. }
  split; [exact H | exact (writeFull_trailer (fun _ => "") update_example_state H)].
Defined.

Lemma parseHeader_accepts_witness :
  (rest header_example = LF ++ "%PDF-" ++ String "1" (String "." (String "7" (LF ++ "1 0 obj")))
   /\ str_forallb is_newline LF = true /\ is_digit "1" = true /\ is_digit "7" = true)
  /\ exists st', parseHeader header_example = inr st'
  /\ version_major st' = digit_val "1" /\ version_minor st' = digit_val "7"
  /\ curOffset st' = tell st'
  /\ exists x, rest x = LF ++ "1 0 obj" /\ file x = file header_example
     /\ rest st' = rest (finishLine x).
Proof.
  assert (H1 : rest header_example
               = LF ++ "%PDF-" ++ String "1" (String "." (String "7" (LF ++ "1 0 obj"))))
    by (vm_compute; reflexivity).
  assert (H2 : str_forallb is_newline LF = true) by reflexivity.
  assert (H3 : is_digit "1" = true) by reflexivity.
  assert (H4 : is_digit "7" = true) by reflexivity.
  split; [tauto | exact (parseHeader_accepts header_example LF "1" "7" _ H1 H2 H3 H4)].
Defined.

Lemma parseType_keeps_document_witness :
  parseType 5 "[" array_example = inr (fst array_example_parsed, snd array_example_parsed)
  /\ (file (snd array_example_parsed) = file array_example
      /\ objects (snd array_example_parsed) = objects array_example
      /\ trailer (snd array_example_parsed) = trailer array_example
      /\ xrefOffset (snd array_example_parsed) = xrefOffset array_example
      /\ xrefTable (snd array_example_parsed) = xrefTable array_example
      /\ cur (snd array_example_parsed) = cur array_example
      /\ version_major (snd array_example_parsed) = version_major array_example
      /\ version_minor (snd array_example_parsed) = version_minor array_example).
Proof.
  assert (H : parseType 5 "[" array_example
              = inr (fst array_example_parsed, snd array_example_parsed))
    by (vm_compute; reflexivity).
  split; [exact H|].
  exact (parseType_keeps_document 5 "[" array_example _ _ H).
Defined.

Lemma parseObject_id_out_of_range_witness :
  ("4294967296" <> "" /\ all_digits "4294967296" = true
   /\ INT_MAX < decimal_value "4294967296")
  /\ parseObject 3 "4294967296" (initial_state "") = inl StdOutOfRange.
Proof.
  assert (H1 : "4294967296" <> "") by discriminate.
  assert (H2 : all_digits "4294967296" = true) by reflexivity.
  assert (H3 : INT_MAX < decimal_value "4294967296")
    by (replace (decimal_value "4294967296") with 4294967296 by (vm_compute; reflexivity);
        unfold INT_MAX; lia).
  split; [tauto | exact (parseObject_id_out_of_range 3 "4294967296" (initial_state "") H1 H2 H3)].
Defined.
